(** * SCION simple HTTP(S) proxy: a shallow embedding of [endhost/scion_proxy.py]

    The development follows the Python module top to bottom: byte strings and
    the few [str] methods the module calls, the [HTTPMessage] header store,
    [urllib.parse], the request parser, the two connection handlers (direct and
    bridge mode) and the [ProxyData] copy loop.  Sockets are modelled by the
    events a handler performs on them. *)

From Stdlib Require Import String.
From Stdlib Require Import Ascii ZArith Lia Bool Arith PeanoNat List.
Import Init.Datatypes.
Import ListNotations.


(** ** Byte strings *)

(** Python [bytes] and (ASCII) [str] values are both lists of 8-bit
    characters; [decode("ascii")] below is the only place where the two
    differ. *)
Definition str := list ascii.

Notation "$ s" := (list_ascii_of_string s%string)
  (at level 9, s at level 0, only parsing).

Definition CR : ascii := "013"%char.
Definition LF : ascii := "010"%char.
Definition SP : ascii := " "%char.
Definition CRLF : str := [CR; LF].

Definition str_eqb (a b : str) : bool :=
  if list_eq_dec ascii_dec a b then true else false.

(** [c in s] *)
Definition mem (c : ascii) (s : str) : bool := existsb (Ascii.eqb c) s.

(** [s.split(c)] for a one-character separator: always at least one piece. *)
Fixpoint split_on (c : ascii) (s : str) : list str :=
  match s with
  | [] => [[]]
  | x :: s' =>
      if Ascii.eqb x c then [] :: split_on c s'
      else match split_on c s' with
           | [] => [[x]]
           | w :: ws => (x :: w) :: ws
           end
  end.

(** [s.split(c, 1)] when [c in s], as a pair; [None] when [c] is absent. *)
Fixpoint cut (c : ascii) (s : str) : option (str * str) :=
  match s with
  | [] => None
  | x :: s' =>
      if Ascii.eqb x c then Some ([], s')
      else match cut c s' with
           | Some (a, b) => Some (x :: a, b)
           | None => None
           end
  end.

(** [line.split(": ", 1)]: the pieces around the first occurrence of the
    two-character separator, [None] when there is only one piece. *)
Fixpoint cut_colon_space (s : str) : option (str * str) :=
  match s with
  | [] => None
  | x :: s' =>
      match s' with
      | y :: s'' =>
          if Ascii.eqb x ":" && Ascii.eqb y " " then Some ([], s'')
          else match cut_colon_space s' with
               | Some (a, b) => Some (x :: a, b)
               | None => None
               end
      | [] => None
      end
  end.

(** [sep.join(parts)] *)
Fixpoint join (sep : str) (parts : list str) : str :=
  match parts with
  | [] => []
  | [p] => p
  | p :: ps => p ++ sep ++ join sep ps
  end.

(** [c.lower()] and [s.lower()] on ASCII text. *)
Definition lower_char (c : ascii) : ascii :=
  let n := nat_of_ascii c in
  if (65 <=? n) && (n <=? 90) then ascii_of_nat (n + 32) else c.

Definition lower (s : str) : str := map lower_char s.

Definition is_ascii (c : ascii) : bool := nat_of_ascii c <? 128.

(** Pointwise comparison of two lists of the same length. *)
Fixpoint forallb2 {A B} (f : A -> B -> bool) (l : list A) (l' : list B) : bool :=
  match l, l' with
  | [], [] => true
  | a :: l, b :: l' => f a b && forallb2 f l l'
  | _, _ => false
  end.

(** ** Exceptions *)

(** The exceptions the module can meet.  [OtherError] stands for any
    exception class that is not an [OSError] (for instance the
    [OverflowError] of [connect] on a port outside 0..65535). *)
Inductive exn : Type :=
  | OSError | ValueError | TypeError | KeyError | UnicodeDecodeError
  | OtherError.

Inductive outcome (A : Type) : Type :=
  | Ret (a : A)
  | Raise (e : exn).
Arguments Ret {A} a.
Arguments Raise {A} e.

(** ** The header store ([http.client.HTTPMessage], compat32 policy)

    [Message._headers] is a list of (name, value) pairs; with the compat32
    policy and ASCII text, [header_store_parse] and [header_fetch_parse]
    return their arguments unchanged. *)
Module HTTPMessage.

Definition t := list (str * str).

Definition empty : t := [].

(** [k.lower() == name.lower()] *)
Definition named (name : str) (kv : str * str) : bool :=
  str_eqb (lower (fst kv)) (lower name).

(** [msg[name]] / [msg.get(name)]: the first match, [None] if absent. *)
Definition get (name : str) (msg : t) : option str :=
  option_map snd (find (named name) msg).

(** [msg.get_all(name)]: every match in order, [None] if there is none. *)
Definition get_all (name : str) (msg : t) : option (list str) :=
  match filter (named name) msg with
  | [] => None
  | l => Some (map snd l)
  end.

(** [msg.add_header(name, value)], which is [msg[name] = value]: append. *)
Definition add_header (name value : str) (msg : t) : t :=
  msg ++ [(name, value)].

(** [del msg[name]]: drop every match, silently if there is none. *)
Definition delitem (name : str) (msg : t) : t :=
  filter (fun kv => negb (named name kv)) msg.

(** [msg.replace_header(name, value)]: the first match keeps its place and
    its spelling and takes the new value; [KeyError] if there is none. *)
Fixpoint replace_header (name value : str) (msg : t) : outcome t :=
  match msg with
  | [] => Raise KeyError
  | (k, v) :: rest =>
      if named name (k, v) then Ret ((k, value) :: rest)
      else match replace_header name value rest with
           | Ret rest' => Ret ((k, v) :: rest')
           | Raise e => Raise e
           end
  end.

(** [msg.items()] *)
Definition items (msg : t) : list (str * str) := msg.

End HTTPMessage.

(** ** [urllib.parse] (CPython 3.11)

    [urlsplit], [urlparse], [urlunsplit] and [urlunparse] on ASCII text.  The
    validation of a bracketed host ([_check_bracketed_netloc], which goes
    through the [ipaddress] module) is left open as the function
    [bracket_ok]; [_checknetloc] does nothing on ASCII text. *)
Module UrlParse.

Record ParseResult : Type := mkParseResult {
  scheme : str; netloc : str; path : str;
  params : str; query : str; fragment : str }.

Definition uses_netloc : list str :=
  [ $""; $"ftp"; $"http"; $"gopher"; $"nntp"; $"telnet";
    $"imap"; $"wais"; $"file"; $"mms"; $"https"; $"shttp";
    $"snews"; $"prospero"; $"rtsp"; $"rtspu"; $"rsync";
    $"svn"; $"svn+ssh"; $"sftp"; $"nfs"; $"git"; $"git+ssh";
    $"ws"; $"wss" ].

Definition uses_params : list str :=
  [ $""; $"ftp"; $"hdl"; $"prospero"; $"http"; $"imap";
    $"https"; $"shttp"; $"rtsp"; $"rtspu"; $"sip"; $"sips";
    $"mms"; $"sftp"; $"tel" ].

Definition in_list (s : str) (l : list str) : bool := existsb (str_eqb s) l.

Definition is_alpha (c : ascii) : bool :=
  let n := nat_of_ascii c in
  ((65 <=? n) && (n <=? 90)) || ((97 <=? n) && (n <=? 122)).

Definition is_digit (c : ascii) : bool :=
  let n := nat_of_ascii c in (48 <=? n) && (n <=? 57).

(** [c in scheme_chars] *)
Definition scheme_char (c : ascii) : bool :=
  is_alpha c || is_digit c || mem c $"+-.".

(** [c in _WHATWG_C0_CONTROL_OR_SPACE] *)
Definition c0_or_space (c : ascii) : bool := nat_of_ascii c <=? 32.

(** [url.lstrip(_WHATWG_C0_CONTROL_OR_SPACE)] *)
Fixpoint lstrip (s : str) : str :=
  match s with
  | c :: s' => if c0_or_space c then lstrip s' else s
  | [] => []
  end.

(** removal of [_UNSAFE_URL_BYTES_TO_REMOVE] *)
Definition unsafe (c : ascii) : bool := mem c [ "009"%char; CR; LF ].
Definition remove_unsafe (s : str) : str := filter (fun c => negb (unsafe c)) s.

(** [_splitnetloc(url, 2)] after [url[:2] == '//'] has been stripped: the
    authority runs up to the earliest of ['/'], ['?'] and ['#']. *)
Definition delim (c : ascii) : bool := mem c $"/?#".

Fixpoint splitnetloc (s : str) : str * str :=
  match s with
  | [] => ([], [])
  | c :: s' =>
      if delim c then ([], s)
      else let (a, b) := splitnetloc s' in (c :: a, b)
  end.

Section Urlsplit.
Variable bracket_ok : str -> bool.

Definition check_brackets (nl : str) : bool :=
  match mem "[" nl, mem "]" nl with
  | true, true => bracket_ok nl
  | false, false => true
  | _, _ => false
  end.

(** The scheme, when the text before the first [':'] is one
    ([i > 0], a letter first, [scheme_chars] throughout). *)
Definition split_scheme (url default_scheme : str) : str * str :=
  match cut ":" url with
  | Some (c :: pre, rest) =>
      if is_ascii c && is_alpha c && forallb scheme_char (c :: pre)
      then (lower (c :: pre), rest)
      else (default_scheme, url)
  | _ => (default_scheme, url)
  end.

(** The authority, when [url[:2] == '//']. *)
Definition split_authority (url : str) : str * str :=
  match url with
  | c1 :: c2 :: after =>
      if Ascii.eqb c1 "/" && Ascii.eqb c2 "/" then splitnetloc after
      else ([], url)
  | _ => ([], url)
  end.

(** [url.split(c, 1)] guarded by [c in url]. *)
Definition split_at (c : ascii) (url : str) : str * str :=
  match cut c url with
  | Some (a, b) => (a, b)
  | None => (url, [])
  end.

(** The five components, or the [ValueError] of a malformed bracketed
    host. *)
Definition urlsplit (url0 default_scheme : str)
  : outcome (str * str * str * str * str) :=
  let url := remove_unsafe (lstrip url0) in
  let su := split_scheme url default_scheme in
  let au := split_authority (snd su) in
  if check_brackets (fst au) then
    let fu := split_at "#" (snd au) in
    let qu := split_at "?" (fst fu) in
    Ret (fst su, fst au, fst qu, snd qu, snd fu)
  else Raise ValueError.

(** [_splitparams(url)], called when [';' in url]. *)
Definition splitparams (url : str) : str * str :=
  match cut "/" (rev url) with
  | Some (rtail, rhead) =>
      (* url = rev rhead ++ "/" ++ rev rtail, the last '/' singled out *)
      match cut ";" (rev rtail) with
      | Some (a, b) => (rev rhead ++ "/"%char :: a, b)
      | None => (url, [])
      end
  | None =>
      match cut ";" url with
      | Some (a, b) => (a, b)
      | None => (url, [])
      end
  end.

Definition urlparse (url default_scheme : str) : outcome ParseResult :=
  match urlsplit url default_scheme with
  | Raise e => Raise e
  | Ret (scheme, nl, url, q, frag) =>
      let '(url, prm) :=
        if in_list scheme uses_params && mem ";" url
        then splitparams url else (url, []) in
      Ret (mkParseResult scheme nl url prm q frag)
  end.
End Urlsplit.

Definition nonempty (s : str) : bool :=
  match s with [] => false | _ => true end.

(** [s[:1] == c] and [s[:2] == '//'] *)
Definition starts_with (c : ascii) (s : str) : bool :=
  match s with x :: _ => Ascii.eqb x c | [] => false end.

Definition starts_with_2slash (s : str) : bool :=
  match s with
  | c1 :: c2 :: _ => Ascii.eqb c1 "/" && Ascii.eqb c2 "/"
  | _ => false
  end.

Definition urlunsplit (scheme nl url q frag : str) : str :=
  let url :=
    if nonempty nl
       || (nonempty scheme && in_list scheme uses_netloc
           && negb (starts_with_2slash url))
    then
      let url := if nonempty url && negb (starts_with "/" url)
                 then "/"%char :: url else url in
      $"//" ++ nl ++ url
    else url in
  let url := if nonempty scheme then scheme ++ $":" ++ url else url in
  let url := if nonempty q then url ++ $"?" ++ q else url in
  if nonempty frag then url ++ $"#" ++ frag else url.

Definition urlunparse (scheme nl url prm q frag : str) : str :=
  let url := if nonempty prm then url ++ $";" ++ prm else url in
  urlunsplit scheme nl url q frag.

End UrlParse.

(** ** Constants of the module *)

Definition VERSION : str := $"0.1.0".
Definition BUFLEN : nat := Nat.pow 2 13.   (* 8192 *)

(** ** The request parser ([ConnectionHandler.parse_request]) *)

Record Request : Type := mkRequest {
  method : str;
  path : str;
  protocol : str;
  headers : HTTPMessage.t }.

(** The [while lf_count < 2] loop.  The client connection is the list of
    bytes still to come from the peer; [recv(1)] takes its first byte and
    returns [b""] (the peer has closed) when there is none.  The result is
    the collected [data] and the bytes left on the connection, or [None] for
    the [return False] of a closed peer. *)
Fixpoint recv_loop (lf_count : nat) (data : str) (conn : str)
  : option (str * str) :=
  if 2 <=? lf_count then Some (data, conn)
  else
    match conn with
    | [] => None
    | b :: conn' =>
        if Ascii.eqb b CR then recv_loop lf_count data conn'
        else recv_loop (if Ascii.eqb b LF then S lf_count else 0)
                       (data ++ [b]) conn'
    end.

(** [b"".join(data).decode("ascii")] *)
Definition decode_ascii (data : str) : outcome str :=
  if forallb is_ascii data then Ret data else Raise UnicodeDecodeError.

(** The [for line in lines] loop: stop at the first empty line; a line
    without [": "] gives [add_header] one argument too few ([TypeError]). *)
Fixpoint add_lines (lines : list str) (msg : HTTPMessage.t)
  : outcome HTTPMessage.t :=
  match lines with
  | [] => Ret msg
  | [] :: _ => Ret msg
  | line :: rest =>
      match cut_colon_space line with
      | Some (name, value) =>
          add_lines rest (HTTPMessage.add_header name value msg)
      | None => Raise TypeError
      end
  end.

(** Everything after the loop: split into lines, unpack the first line into
    exactly three fields ([ValueError] otherwise), then the headers. *)
Definition parse_lines (text : str) : outcome Request :=
  match split_on LF text with
  | [] => Raise OtherError   (* [lines.pop(0)] on no line: [split] never gives none *)
  | first :: lines =>
      match split_on SP first with
      | [m; p; v] =>
          match add_lines lines HTTPMessage.empty with
          | Ret msg => Ret (mkRequest m p v msg)
          | Raise e => Raise e
          end
      | _ => Raise ValueError
      end
  end.

(** [parse_request]: [Ret None] is [return False], [Ret (Some r)] is
    [return True] with the fields of [self] set to [r].  The second
    component is what is left unread on the client connection. *)
Definition parse_request (conn : str) : outcome (option Request) * str :=
  match recv_loop 0 [] conn with
  | None => (Ret None, [])
  | Some (data, rest) =>
      (match decode_ascii data with
       | Raise e => Raise e
       | Ret text =>
           match parse_lines text with
           | Ret r => Ret (Some r)
           | Raise e => Raise e
           end
       end, rest)
  end.

(** ** Sockets as events

    A handler owns the client-facing socket ([Near]) and at most one
    outbound socket ([Far]).  What it does to them is recorded as a list of
    events, in program order. *)
Inductive side : Type := Near | Far.

Inductive event : Type :=
  | Connect (host : str) (port : Z) (res : option exn)
      (** [soc.connect((host, port))]; [res = None] when it succeeds *)
  | ScionConnect (res : option exn)
      (** [ScionClientSocket(L4_SSP, isd_ad, scion_target_proxy)] *)
  | Send (s : side) (data : str) (ok : bool)
      (** [sock.send(data)]; [ok = false] when it raises [OSError] *)
  | Relay
      (** [_read_write]: both [ProxyData] threads started and joined *)
  | Close (s : side).
      (** [cleanup(sock)] *)

(** What the handler cannot decide by itself: the outcome of every call that
    leaves the module. *)
Record Env : Type := mkEnv {
  bracket_ok : str -> bool;
    (** [urlsplit]'s validation of a bracketed host *)
  py_int : str -> option Z;
    (** [int(port)] on text; [None] when it raises [ValueError] *)
  dial : str -> Z -> option exn;
    (** the exception raised by [connect], if any *)
  scion_dial : option exn;
    (** the exception raised by the [ScionClientSocket] constructor, if any *)
  send_ok : side -> str -> bool;
  relay_exn : option exn
    (** the exception that escapes [_read_write], if any *) }.

(** Computations: the events performed, then a value or an exception. *)
Definition M (A : Type) : Type := (list event * outcome A)%type.

Definition ret {A} (a : A) : M A := ([], Ret a).
Definition raise {A} (e : exn) : M A := ([], Raise e).
Definition emit (ev : event) : M unit := ([ev], Ret tt).

Definition bind {A B} (m : M A) (k : A -> M B) : M B :=
  match m with
  | (t, Ret a) => let (t', r) := k a in (t ++ t', r)
  | (t, Raise e) => (t, Raise e)
  end.

Notation "x <- m ;; k" := (bind m (fun x => k))
  (at level 61, m at next level, right associativity).
Notation "m ;;; k" := (bind m (fun _ => k))
  (at level 61, right associativity).

(** [cleanup(sock)]: close, whatever [close] raises is swallowed. *)
Definition cleanup (s : side) : M unit := emit (Close s).

(** [try: body finally: cleanup(sock)] *)
Definition finally {A} (body : M A) (s : side) : M A :=
  let (t, r) := body in (t ++ [Close s], r).

Definition trace {A} (m : M A) : list event := fst m.

(** ** The connection handlers *)

Inductive mode : Type :=
  | Direct                         (** [ConnectionHandler] *)
  | Bridge (scion_mode : bool).    (** [ForwardingProxyConnectionHandler] *)

Definition server_version (md : mode) : str :=
  match md with
  | Direct => $"SCION HTTP Proxy/" ++ VERSION
  | Bridge _ => $"SCION HTTP Bridge Proxy/" ++ VERSION
  end.

Definition unix_target_proxy : str * Z := ($"127.0.0.1", 9090%Z).

Section Handler.
Variable env : Env.

Definition send (s : side) (data : str) : M unit :=
  if send_ok env s data then emit (Send s data true)
  else (emit (Send s data false) ;;; raise OSError).

(** [soc.connect(addr)] inside [try ... except OSError]: [true] when
    connected, [false] when the [except] clause ran; any other exception
    escapes.  [on_error] is what the [except] clause does before it
    returns. *)
Definition connect (host : str) (port : Z) (on_error : M unit) : M bool :=
  match dial env host port with
  | None => emit (Connect host port None) ;;; ret true
  | Some OSError =>
      emit (Connect host port (Some OSError)) ;;; on_error ;;; ret false
  | Some e => emit (Connect host port (Some e)) ;;; raise e
  end.

(** [_connect_to]: [true] for the connected socket, [false] for [False]. *)
Definition _connect_to (nl : str) : M bool :=
  hp <- (if mem ":" nl then
           match split_on ":" nl with
           | [host; port] =>
               match py_int env port with
               | Some n => ret (host, n)
               | None => raise ValueError
               end
           | _ => raise ValueError
           end
         else ret (nl, 80%Z)) ;;
  connect (fst hp) (snd hp) (ret tt).

(** [_read_write]: the relay proper is [ProxyData] below; for the handler
    it is one step that returns once both directions have ended. *)
Definition _read_write : M unit :=
  emit Relay ;;;
  match relay_exn env with
  | None => ret tt
  | Some e => raise e
  end.

Definition header_line (kv : str * str) : str := fst kv ++ $": " ++ snd kv.

Definition request_bytes (m uri : str) (msg : HTTPMessage.t) : str :=
  let base := m ++ $" " ++ uri ++ $" HTTP/1.0" in
  join CRLF (base :: map header_line (HTTPMessage.items msg)) ++ CRLF ++ CRLF.

Definition _send_request (r : Request) (scm nl pth prm q : str) : M unit :=
  send Far (request_bytes (method r)
              (UrlParse.urlunparse scm nl pth prm q []) (headers r)).

Definition do_CONNECT (md : mode) (r : Request) : M unit :=
  soc <- _connect_to (path r) ;;
  if negb soc then ret tt
  else
    let reply :=
      join CRLF [ $"HTTP/1.1 200 Connection established";
                  $"Proxy-agent: " ++ server_version md ] ++ CRLF ++ CRLF in
    finally (send Near reply ;;; _read_write) Far.

(** Lines 211-214 of [handle_others]. *)
Definition normalize_connection (msg : HTTPMessage.t) : outcome HTTPMessage.t :=
  match HTTPMessage.get $"Connection" msg with
  | Some (c :: v) =>
      HTTPMessage.replace_header $"Connection" $"close"
        (HTTPMessage.delitem (c :: v) msg)
  | _ => Ret msg
  end.

Definition handle_others (r : Request) : M unit :=
  match UrlParse.urlparse (bracket_ok env) (path r) $"http" with
  | Raise e => raise e
  | Ret u =>
      if negb (str_eqb (UrlParse.scheme u) $"http")
         || negb (UrlParse.nonempty (UrlParse.netloc u))
      then ret tt
      else
        match normalize_connection (headers r) with
        | Raise e => raise e
        | Ret msg =>
            let r' := mkRequest (method r) (path r) (protocol r) msg in
            soc <- _connect_to (UrlParse.netloc u) ;;
            if negb soc then ret tt
            else
              finally
                (_send_request r' (UrlParse.scheme u) (UrlParse.netloc u)
                   (UrlParse.path u) (UrlParse.params u) (UrlParse.query u) ;;;
                 _read_write) Far
        end
  end.

(** [_unix_client_socket]: the socket is closed when the dial fails. *)
Definition _unix_client_socket : M bool :=
  connect (fst unix_target_proxy) (snd unix_target_proxy) (cleanup Far).

(** [_connect_to_target_proxy]: the [ScionClientSocket] object, once built,
    counts as true in [if not soc]. *)
Definition _connect_to_target_proxy (scion_mode : bool) : M bool :=
  if scion_mode then
    match scion_dial env with
    | None => emit (ScionConnect None) ;;; ret true
    | Some e => emit (ScionConnect (Some e)) ;;; raise e
    end
  else _unix_client_socket.

Definition relay_all (scion_mode : bool) (r : Request) : M unit :=
  match UrlParse.urlparse (bracket_ok env) (path r) [] with
  | Raise e => raise e
  | Ret u =>
      soc <- _connect_to_target_proxy scion_mode ;;
      if negb soc then ret tt
      else
        finally
          (_send_request r (UrlParse.scheme u) (UrlParse.netloc u)
             (UrlParse.path u) (UrlParse.params u) (UrlParse.query u) ;;;
           _read_write) Far
  end.

Definition other_methods : list str :=
  [ $"GET"; $"HEAD"; $"POST"; $"PUT"; $"DELETE" ].

Definition handle_request (md : mode) (r : Request) : M unit :=
  match md with
  | Direct =>
      if str_eqb (method r) $"CONNECT" then do_CONNECT md r
      else if UrlParse.in_list (method r) other_methods then handle_others r
      else ret tt
  | Bridge scion_mode =>
      if UrlParse.in_list (method r) ($"CONNECT" :: other_methods)
      then relay_all scion_mode r
      else ret tt
  end.

(** [ConnectionHandler.__init__]: parse, dispatch, and close the client
    connection whatever happened. *)
Definition handler (md : mode) (conn : str) : M unit :=
  finally
    (match fst (parse_request conn) with
     | Raise e => raise e
     | Ret None => ret tt
     | Ret (Some r) => handle_request md r
     end) Near.

End Handler.

(** ** One direction of the relay ([ProxyData]) *)

Module ProxyData.

Inductive read_end : Type := Eof | Reset.

(** The read side: the bytes the peer still delivers, how many of them the
    kernel has ready at each successive [recv] (one more than the listed
    number, so never none; everything once the list is used up), and how
    the stream ends. *)
Record rsock : Type := mkRsock {
  pending : str;
  ready : list nat;
  ending : read_end }.

(** The write side: the bytes delivered so far, the arguments of the
    [sendall] calls so far, how many more bytes the peer takes before
    [sendall] raises [OSError] ([None]: it never does), and whether
    [shutdown] was called. *)
Record wsock : Type := mkWsock {
  written : str;
  calls : list str;
  budget : option nat;
  shut : bool }.

(** [rsock.recv(n)] *)
Definition recv (n : nat) (r : rsock) : outcome str * rsock :=
  match pending r with
  | [] =>
      (match ending r with Eof => Ret [] | Reset => Raise OSError end, r)
  | _ =>
      let k := match ready r with
               | [] => n
               | a :: _ => Nat.min n (S a)
               end in
      (Ret (firstn k (pending r)),
       mkRsock (skipn k (pending r)) (tl (ready r)) (ending r))
  end.

(** [wsock.sendall(data)] *)
Definition sendall (data : str) (w : wsock) : outcome unit * wsock :=
  match budget w with
  | None =>
      (Ret tt, mkWsock (written w ++ data) (calls w ++ [data]) None (shut w))
  | Some b =>
      if length data <=? b then
        (Ret tt, mkWsock (written w ++ data) (calls w ++ [data])
                         (Some (b - length data)) (shut w))
      else
        (Raise OSError,
         mkWsock (written w ++ firstn b data) (calls w ++ [data])
                 (Some 0) (shut w))
  end.

(** [_read]: [None] is the [None] returned after an [OSError]. *)
Definition _read (r : rsock) : option str * rsock :=
  match recv BUFLEN r with
  | (Ret d, r') => (Some d, r')
  | (Raise _, r') => (None, r')
  end.

Definition _write (data : str) (w : wsock) : bool * wsock :=
  match sendall data w with
  | (Ret _, w') => (true, w')
  | (Raise _, w') => (false, w')
  end.

(** Why the [while True] loop was left. *)
Inductive stop : Type := SourceEof | SourceError | WriteError.

Fixpoint loop (fuel : nat) (r : rsock) (w : wsock)
  : option (stop * rsock * wsock) :=
  match fuel with
  | 0 => None
  | S fuel' =>
      match _read r with
      | (None, r') => Some (SourceError, r', w)
      | (Some [], r') => Some (SourceEof, r', w)
      | (Some data, r') =>
          match _write data w with
          | (true, w') => loop fuel' r' w'
          | (false, w') => Some (WriteError, r', w')
          end
      end
  end.

(** [wsock.shutdown(SHUT_RDWR)], its [OSError] swallowed. *)
Definition shutdown (w : wsock) : wsock :=
  mkWsock (written w) (calls w) (budget w) true.

(** [_run]: every iteration takes at least one pending byte, so one more
    round than there are pending bytes always reaches a [break]. *)
Definition _run (r : rsock) (w : wsock) : option (stop * rsock * wsock) :=
  match loop (S (length (pending r))) r w with
  | Some (st, r', w') => Some (st, r', shutdown w')
  | None => None
  end.

End ProxyData.

(** ** Start-up ([main], [serve_forever]) *)

Definition DEFAULT_SERVER_IP : str := $"127.0.0.1".
Definition DEFAULT_SERVER_PORT : Z := 8080%Z.

(** The command line: [-p], [-f] and [-s]. *)
Record Args : Type := mkArgs {
  arg_port : Z;
  arg_forward : bool;
  arg_scion : bool }.

Inductive listener : Type :=
  | ScionServerSocket (port : Z)
      (** [ScionServerSocket(L4_SSP, server_address[1])] *)
  | UnixServerSocket (server_address : str * Z).
      (** a TCP socket bound to [server_address], listening *)

Definition scion_server_socket (server_address : str * Z) : listener :=
  ScionServerSocket (snd server_address).

Definition unix_server_socket (server_address : str * Z) : listener :=
  UnixServerSocket server_address.

(** [main]: the listening socket. *)
Definition main_socket (args : Args) : listener :=
  let server_address := (DEFAULT_SERVER_IP, arg_port args) in
  if arg_scion args && negb (arg_forward args)
  then scion_server_socket server_address
  else unix_server_socket server_address.

(** [serve_forever]: the handler run for one accepted connection. *)
Definition serve_one (env : Env) (bridge_mode scion_mode : bool) (conn : str)
  : M unit :=
  if bridge_mode then handler env (Bridge scion_mode) conn
  else handler env Direct conn.

(** [main] calls [serve_forever(soc, args.forward, args.scion)]. *)
Definition main_serve (env : Env) (args : Args) (conn : str) : M unit :=
  serve_one env (arg_forward args) (arg_scion args) conn.

(** * Vocabulary of the statements

    The definitions below do not come from the Python module: they name what
    the properties talk about (prefixes that end a header block, well-formed
    request heads, the shapes of a handler's trace, sample requests and
    environments). *)

(** ** The relay loop *)

Module RelaySpec.
Import ProxyData.

(** The size of one [recv]: between one byte and [BUFLEN]. *)
Definition chunk_size (r : rsock) : nat :=
  match ready r with
  | [] => BUFLEN
  | a :: _ => Nat.min BUFLEN (S a)
  end.

(** What one run of the loop guarantees, as a relation between the sockets
    before and after. *)
Record copied (r : rsock) (w : wsock) (st : stop) (r' : rsock) (w' : wsock)
              (chunks : list str) : Prop := mkCopied {
  cp_calls : calls w' = calls w ++ chunks;
  cp_sizes : Forall (fun c => 1 <= length c <= BUFLEN) chunks;
  cp_read : pending r = concat chunks ++ pending r';
  cp_all : st <> WriteError ->
           written w' = written w ++ pending r /\ pending r' = [];
  cp_part : st = WriteError ->
            budget w <> None /\
            exists k, written w' = written w ++ firstn k (concat chunks);
  cp_eof : st = SourceEof -> ending r = Eof;
  cp_err : st = SourceError -> ending r = Reset;
  cp_shut : shut w' = shut w }.

(** The socket after one [recv]. *)
Definition advance (r : rsock) : rsock :=
  mkRsock (skipn (chunk_size r) (pending r)) (tl (ready r)) (ending r).

Definition chunk (r : rsock) : str := firstn (chunk_size r) (pending r).

(** [_write] succeeds ... *)
Definition took (data : str) (w : wsock) : wsock :=
  mkWsock (written w ++ data) (calls w ++ [data])
          (option_map (fun b => b - length data) (budget w)) (shut w).

(** ... or the peer goes away after [b] more bytes. *)
Definition broke (b : nat) (data : str) (w : wsock) : wsock :=
  mkWsock (written w ++ firstn b data) (calls w ++ [data]) (Some 0) (shut w).

(** A destination that never fails, and a payload of [n] bytes. *)
Definition fresh_wsock : wsock := mkWsock [] [] None false.
Definition payload (n : nat) : str := repeat "x"%char n.

End RelaySpec.

(** ** The request parser *)

(** The head as the parser sees it: every [\r] dropped. *)
Definition remove_cr (s : str) : str :=
  filter (fun b => negb (Ascii.eqb b CR)) s.

(** A prefix of the client stream ends the header block when, [\r] aside, it
    ends with two line terminators. *)
Definition ends_head (p : str) : Prop :=
  exists d, remove_cr p = d ++ [LF; LF].

(** One turn of the loop on the counter, and the counter after a run of
    bytes. *)
Definition lf_step (c : nat) (b : ascii) : nat :=
  if Ascii.eqb b CR then c else if Ascii.eqb b LF then S c else 0.

Definition lf_run (c : nat) (s : str) : nat := fold_left lf_step s c.

(* the loop that has already seen two terminators reads nothing *)
Ltac now_done :=
  exists []; cbn [app remove_cr filter lf_run fold_left];
  rewrite app_nil_r; repeat split; auto; try lia;
  let E := fresh in
  intros ? ? E ?; symmetry in E; apply app_eq_nil in E; tauto.

(** A parsed request none of whose fields holds a [\r]. *)
Definition no_cr (s : str) : Prop := ~ In CR s.

Definition cr_free (r : Request) : Prop :=
  no_cr (method r) /\ no_cr (path r) /\ no_cr (protocol r) /\
  Forall (fun kv => no_cr (fst kv) /\ no_cr (snd kv)) (headers r).

(** ** Well-formed request heads *)

(** A character of a field: ASCII, and not a line-ending byte. *)
Definition text_char (c : ascii) : bool :=
  is_ascii c && negb (Ascii.eqb c CR) && negb (Ascii.eqb c LF).




(** Text that can stand on one line. *)
Definition text (s : str) : Prop := forallb text_char s = true.



(** ** Environments and traces *)

(** [int()] on text, as CPython 3.11 reads a decimal literal: white space
    around it, an optional sign, then digits with single underscores allowed
    between them, and no more than 4300 digits (the default of
    [sys.get_int_max_str_digits()]). *)
Definition int_space (c : ascii) : bool :=
  let n := nat_of_ascii c in
  ((9 <=? n) && (n <=? 13)) || (n =? 32) || (n =? 133) || (n =? 160).

Fixpoint lstrip_space (s : str) : str :=
  match s with
  | c :: s' => if int_space c then lstrip_space s' else s
  | [] => []
  end.

Definition strip_space (s : str) : str :=
  rev (lstrip_space (rev (lstrip_space s))).

(** The digits, their value and their number; [after_digit] tells whether
    the character before was a digit, as an underscore and the end need. *)
Fixpoint digits (acc : Z) (count : nat) (after_digit : bool) (s : str)
  : option (Z * nat) :=
  match s with
  | [] => if after_digit then Some (acc, count) else None
  | c :: s' =>
      if UrlParse.is_digit c
      then digits (10 * acc + Z.of_nat (nat_of_ascii c - 48)) (S count) true s'
      else if Ascii.eqb c "_" && after_digit
      then digits acc count false s'
      else None
  end.

Definition unsigned (s : str) : option Z :=
  match digits 0 0 false s with
  | Some (n, count) => if count <=? 43 * 100 then Some n else None
  | None => None
  end.

Definition decimal (s : str) : option Z :=
  match strip_space s with
  | c :: d =>
      if Ascii.eqb c "+" then unsigned d
      else if Ascii.eqb c "-" then option_map Z.opp (unsigned d)
      else unsigned (c :: d)
  | [] => None
  end.

(** An environment in which every outside call succeeds. *)
Definition calm : Env :=
  mkEnv (fun _ => true) decimal (fun _ _ => None) None (fun _ _ => true) None.

(** What follows a successful dial: one [send], the relay if the send
    went through, and the closing of the far socket. *)
Definition after_dial (s : side) (data : str) (t : list event) : Prop :=
  exists ok, t = Send s data ok :: (if ok then [Relay] else []) ++ [Close Far].

(** ** What is sent *)

(** The reply of [do_CONNECT]. *)
Definition connect_reply : str :=
  $"HTTP/1.1 200 Connection established" ++ CRLF
  ++ $"Proxy-agent: SCION HTTP Proxy/0.1.0" ++ CRLF ++ CRLF.

(** The reply with the status line in the protocol version of the request. *)
Definition reply_in_version (version : str) : str :=
  version ++ $" 200 Connection established" ++ CRLF
  ++ $"Proxy-agent: SCION HTTP Proxy/0.1.0" ++ CRLF ++ CRLF.

(** A trace without any dial. *)
Definition no_dial (t : list event) : Prop :=
  forall host port res, ~ In (Connect host port res) t.





(** A header named [Connection], in any spelling. *)
Definition is_connection (kv : str * str) : bool :=
  HTTPMessage.named $"Connection" kv.

(** What the direct-mode handler forwards of the headers [hs]: all of them
    when there is no [Connection] header or the first one has an empty
    value; otherwise the first [Connection] header with the value [close],
    and around it the other headers in their order, those named by the old
    value of that [Connection] header left out. *)
Definition forwarded_headers (hs msg : HTTPMessage.t) : Prop :=
  ((HTTPMessage.get $"Connection" hs = None \/
    HTTPMessage.get $"Connection" hs = Some []) /\ msg = hs)
  \/
  exists pre k v post,
    hs = pre ++ (k, v) :: post /\
    Forall (fun kv => is_connection kv = false) pre /\
    is_connection (k, v) = true /\
    v <> [] /\ lower v <> lower $"Connection" /\
    msg = HTTPMessage.delitem v pre ++ (k, $"close") :: HTTPMessage.delitem v post.

(** The reading of the specification: only the values of [Connection]
    headers change. *)
Definition rewrite_connection_only (hs : HTTPMessage.t) : HTTPMessage.t :=
  map (fun kv => if is_connection kv then (fst kv, $"close") else kv) hs.

(** The sample GET request of the specification, and what the direct-mode
    handler sends for it. *)
Definition sample_get : Request :=
  mkRequest $"GET" $"http://example.com/foo?q=1" $"HTTP/1.1"
    [ ($"Host", $"example.com"); ($"Connection", $"keep-alive") ].

Definition sample_get_sent : str :=
  $"GET http://example.com/foo?q=1 HTTP/1.0" ++ CRLF
  ++ $"Host: example.com" ++ CRLF ++ $"Connection: close" ++ CRLF ++ CRLF.

(** A request whose [Connection] header names another header. *)
Definition sample_keep_alive : Request :=
  mkRequest $"GET" $"http://example.com/" $"HTTP/1.1"
    [ ($"Connection", $"keep-alive"); ($"Keep-Alive", $"timeout=5") ].

(** ** Opening and closing *)

(** A successful dial, of either kind. *)
Definition opens (ev : event) : bool :=
  match ev with
  | Connect _ _ None | ScionConnect None => true
  | _ => false
  end.

(** A dial, whatever its outcome. *)
Definition dials (ev : event) : bool :=
  match ev with
  | Connect _ _ _ | ScionConnect _ => true
  | _ => false
  end.

(** The sample requests of the bridge scenario, as the client sends them. *)
Definition bridge_get : str :=
  $"GET http://example.com/ HTTP/1.1" ++ CRLF
  ++ $"Host: example.com" ++ CRLF ++ CRLF.

Definition bridge_connect : str :=
  $"CONNECT example.com:443 HTTP/1.1" ++ CRLF ++ CRLF.

Definition bridge_fragment : str :=
  $"GET http://example.com/#top HTTP/1.0" ++ CRLF ++ CRLF.

(** The client-facing socket is closed by the last thing the handler does. *)
Definition near_closed (t : list event) : Prop :=
  exists t', t = t' ++ [Close Near].

(** Every successful dial is followed by the closing of the far socket. *)
Definition far_closed (t : list event) : Prop :=
  forall pre ev post,
    t = pre ++ ev :: post -> opens ev = true -> In (Close Far) post.

(** The shapes of what [handle_request] does: nothing that opens a
    connection, or one dial followed by the send-relay-close sequence. *)
Inductive settled : list event -> Prop :=
  | settled_quiet (t : list event) :
      Forall (fun ev => opens ev = false) t -> settled t
  | settled_relayed (ev : event) (s : side) (data : str) (t : list event) :
      after_dial s data t -> settled (ev :: t).

(** dialing fails with [OSError] *)
Definition unreachable : Env :=
  mkEnv (fun _ => true) decimal (fun _ _ => Some OSError) (Some OSError)
        (fun _ _ => true) None.

(** every [send] fails *)
Definition broken_pipe : Env :=
  mkEnv (fun _ => true) decimal (fun _ _ => None) None
        (fun _ _ => false) None.

(** ** Heads line by line *)

(** A line without line-ending bytes. *)
Definition plain (l : str) : Prop := ~ In CR l /\ ~ In LF l.

(** A header line as the read loop needs it: plain and not empty. *)
Definition plain_line (l : str) : Prop := plain l /\ l <> [].

(** A request head given by its lines, each ended by [\r\n], and what the
    read loop collects from it. *)
Definition raw_head (first : str) (lines : list str) : str :=
  first ++ CRLF ++ concat (map (fun l => l ++ CRLF) lines) ++ CRLF.

Definition raw_text (first : str) (lines : list str) : str :=
  first ++ [LF] ++ concat (map (fun l => l ++ [LF]) lines) ++ [LF].



(** ** Destinations *)

(** How [_connect_to] reads an authority: the whole of it on port 80 when it
    holds no colon, host and port around its only colon otherwise. *)
Definition resolves (env : Env) (nl host : str) (port : Z) : Prop :=
  (mem ":" nl = false /\ host = nl /\ port = 80%Z) \/
  (exists p,
     nl = host ++ ":"%char :: p /\
     ~ In ":"%char host /\ ~ In ":"%char p /\ py_int env p = Some port).

(** What the handler does on a connection, as a whole. *)
Inductive handler_shape : list event -> Prop :=
  | shape_idle : handler_shape [Close Near]
  | shape_dial_failed (ev : event) :
      dials ev = true -> opens ev = false ->
      handler_shape [ev; Close Near]
  | shape_dial_failed_closed (ev : event) :
      dials ev = true -> opens ev = false ->
      handler_shape [ev; Close Far; Close Near]
  | shape_send_failed (ev : event) (s : side) (data : str) :
      dials ev = true -> opens ev = true ->
      handler_shape [ev; Send s data false; Close Far; Close Near]
  | shape_relayed (ev : event) (s : side) (data : str) :
      dials ev = true -> opens ev = true ->
      handler_shape [ev; Send s data true; Relay; Close Far; Close Near].

(** The value of [connect] inside [try/except OSError], by the outcome of
    the dial. *)
Definition dialed (res : option exn) : outcome bool :=
  match res with
  | None => Ret true
  | Some OSError => Ret false
  | Some e => Raise e
  end.

(** An authority that [_connect_to] cannot read: more than one colon, or a
    port that [int] rejects. *)
Definition unreadable (env : Env) (nl : str) : Prop :=
  2 <= count_occ ascii_dec nl ":"%char \/
  exists h p, nl = h ++ ":"%char :: p /\ py_int env p = None.

(** The one dial of a bridge-mode handler. *)
Definition bridge_dial (env : Env) (scion_mode : bool) : event :=
  if scion_mode then ScionConnect (scion_dial env)
  else Connect (fst unix_target_proxy) (snd unix_target_proxy)
         (dial env (fst unix_target_proxy) (snd unix_target_proxy)).

(** Text that [urlsplit] takes for a scheme when a colon follows it. *)
Definition is_scheme (sc : str) : bool :=
  match sc with
  | c :: _ =>
      is_ascii c && UrlParse.is_alpha c && forallb UrlParse.scheme_char sc
  | [] => false
  end.

(** What becomes of the exception of a failed dial: [OSError] is caught,
    anything else escapes. *)
Definition swallowed (e : exn) : outcome unit :=
  match e with
  | OSError => Ret tt
  | _ => Raise e
  end.

(** What a handler closes after a failed TCP dial, the client connection
    aside: only [_unix_client_socket] closes the socket it could not
    connect. *)
Definition refused_closing (md : mode) (e : exn) : list event :=
  match md, e with
  | Bridge _, OSError => [Close Far]
  | _, _ => []
  end.

(** The value of [_read_write]. *)
Definition relayed (env : Env) : outcome unit :=
  match relay_exn env with
  | None => Ret tt
  | Some e => Raise e
  end.

(** * Properties *)

(** ** Byte-string lemmas *)

Lemma str_eqb_eq (a b : str) : str_eqb a b = true <-> a = b.
Proof.
  unfold str_eqb. destruct (list_eq_dec ascii_dec a b); split; congruence.
Qed.

Lemma str_eqb_refl (a : str) : str_eqb a a = true.
Proof. now apply str_eqb_eq. Qed.

Lemma str_eqb_neq (a b : str) : str_eqb a b = false <-> a <> b.
Proof.
  unfold str_eqb. destruct (list_eq_dec ascii_dec a b); split; congruence.
Qed.

Lemma mem_In (c : ascii) (s : str) : mem c s = true <-> In c s.
Proof.
  unfold mem. rewrite existsb_exists. split.
  - intros [x [Hin Heq]]. apply Ascii.eqb_eq in Heq. now subst.
  - intros Hin. exists c. split; [assumption | apply Ascii.eqb_refl].
Qed.

Lemma mem_false (c : ascii) (s : str) : mem c s = false <-> ~ In c s.
Proof.
  rewrite <- mem_In. destruct (mem c s); split; congruence.
Qed.

(** ** The relay loop *)

Module ProxyDataFacts.
Import ProxyData RelaySpec.

Lemma BUFLEN_pos : 0 < BUFLEN.
Proof. unfold BUFLEN. apply Nat.neq_0_lt_0, Nat.pow_nonzero. discriminate. Qed.

Lemma BUFLEN_value : Z.of_nat BUFLEN = 8192%Z.
Proof. reflexivity. Qed.

#[local] Opaque BUFLEN.

Lemma chunk_size_bounds (r : rsock) : 1 <= chunk_size r <= BUFLEN.
Proof.
  pose proof BUFLEN_pos. unfold chunk_size. destruct (ready r); lia.
Qed.

Lemma read_closed (r : rsock) :
  pending r = [] ->
  _read r = (match ending r with Eof => Some [] | Reset => None end, r).
Proof.
  intros H. unfold _read, recv. rewrite H. now destruct (ending r).
Qed.

Lemma read_data (r : rsock) :
  pending r <> [] ->
  _read r = (Some (firstn (chunk_size r) (pending r)),
             mkRsock (skipn (chunk_size r) (pending r)) (tl (ready r))
                     (ending r)).
Proof.
  intros H. unfold _read, recv, chunk_size.
  destruct (pending r) as [|b p]; [congruence | reflexivity].
Qed.

Lemma loop_closed (fuel : nat) (r : rsock) (w : wsock) :
  pending r = [] ->
  loop (S fuel) r w =
  Some (match ending r with Eof => SourceEof | Reset => SourceError end, r, w).
Proof.
  intros H. cbn [loop]. rewrite (read_closed r H). now destruct (ending r).
Qed.

Lemma chunk_advance (r : rsock) : pending r = chunk r ++ pending (advance r).
Proof. unfold chunk, advance. cbn. now rewrite firstn_skipn. Qed.

Lemma chunk_length (r : rsock) :
  pending r <> [] -> 1 <= length (chunk r) <= BUFLEN.
Proof.
  intros H. pose proof (chunk_size_bounds r). unfold chunk.
  rewrite length_firstn. destruct (pending r); [congruence|].
  cbn [length]. lia.
Qed.

Lemma advance_length (r : rsock) :
  pending r <> [] -> length (pending (advance r)) < length (pending r).
Proof.
  intros H. pose proof (chunk_size_bounds r). unfold advance. cbn.
  rewrite length_skipn. destruct (pending r); [congruence|].
  cbn [length]. lia.
Qed.

Lemma loop_data (fuel : nat) (r : rsock) (w : wsock) :
  pending r <> [] ->
  loop (S fuel) r w =
  match _write (chunk r) w with
  | (true, w') => loop fuel (advance r) w'
  | (false, w') => Some (WriteError, advance r, w')
  end.
Proof.
  intros H. pose proof (chunk_length r H) as Hl.
  cbn [loop]. rewrite (read_data r H). fold (chunk r). fold (advance r).
  destruct (chunk r); [cbn in Hl; lia | reflexivity].
Qed.

Lemma write_cases (data : str) (w : wsock) :
  _write data w = (true, took data w) \/
  exists b, budget w = Some b /\ _write data w = (false, broke b data w).
Proof.
  unfold _write, sendall, took, broke.
  destruct (budget w) as [b|]; [|now left].
  destruct (length data <=? b); [now left | right; now exists b].
Qed.

Lemma loop_copies (fuel : nat) :
  forall r w, length (pending r) < fuel ->
  exists st r' w' chunks,
    loop fuel r w = Some (st, r', w') /\ copied r w st r' w' chunks.
Proof.
  induction fuel as [|fuel IH]; intros r w Hfuel; [lia|].
  destruct (list_eq_dec ascii_dec (pending r) []) as [Hp|Hp].
  - (* nothing left: the stream ends *)
    rewrite (loop_closed fuel r w Hp).
    eexists _, r, w, []. split; [reflexivity|].
    constructor; intros; rewrite ?Hp, ?app_nil_r; auto;
      destruct (ending r); congruence.
  - (* one chunk *)
    rewrite (loop_data fuel r w Hp).
    pose proof (chunk_length r Hp) as Hlen.
    pose proof (advance_length r Hp) as Hadv.
    pose proof (chunk_advance r) as Hsplit.
    destruct (write_cases (chunk r) w) as [Hw | (b & Hb & Hw)]; rewrite Hw.
    + destruct (IH (advance r) (took (chunk r) w)) as
        (st & r' & w' & chunks & Hrun & [C1 C2 C3 C4 C5 C6 C7 C8]); [lia|].
      exists st, r', w', (chunk r :: chunks). split; [exact Hrun|].
      cbn [took calls written budget shut ending advance] in *.
      constructor; cbn [concat].
      * now rewrite C1, <- app_assoc.
      * now constructor.
      * now rewrite <- app_assoc, <- C3.
      * intros Hst. destruct (C4 Hst) as [E1 E2]. split; [|exact E2].
        now rewrite E1, <- app_assoc, <- Hsplit.
      * intros Hst. destruct (C5 Hst) as [Hbud [j Hj]]. split.
        -- destruct (budget w); [discriminate | now cbn in Hbud].
        -- exists (length (chunk r) + j).
           now rewrite Hj, <- app_assoc, firstn_app_2.
      * exact C6.
      * exact C7.
      * exact C8.
    + exists WriteError, (advance r), (broke b (chunk r) w), [chunk r].
      split; [reflexivity|].
      constructor; cbn [broke calls written budget shut concat];
        rewrite ?app_nil_r; auto; try congruence.
      intros _. split; [congruence | now exists b].
Qed.

Lemma run_copies (r : rsock) (w : wsock) :
  exists st r' w' chunks,
    _run r w = Some (st, r', w') /\
    copied r w st r' (mkWsock (written w') (calls w') (budget w') (shut w)) chunks /\
    shut w' = true.
Proof.
  destruct (loop_copies (S (length (pending r))) r w) as
    (st & r' & w' & chunks & Hrun & [C1 C2 C3 C4 C5 C6 C7 C8]); [lia|].
  exists st, r', (shutdown w'), chunks. unfold _run. rewrite Hrun.
  split; [reflexivity|]. split; [|reflexivity].
  now constructor.
Qed.

End ProxyDataFacts.

(** The loop against a destination that takes only [b] more bytes. *)
Module BudgetFacts.
Import ProxyData RelaySpec ProxyDataFacts.

#[local] Opaque BUFLEN.

Lemma firstn_add_skipn {A} (l : list A) :
  forall k m,
    firstn (length (firstn k l) + m) l = firstn k l ++ firstn m (skipn k l).
Proof.
  induction l as [|x l IH]; intros k m.
  - now rewrite !firstn_nil, skipn_nil, firstn_nil.
  - destruct k as [|k]; [reflexivity|].
    cbn [firstn length skipn Nat.add app]. now rewrite IH.
Qed.

Lemma loop_budget (fuel : nat) :
  forall r w b, budget w = Some b -> length (pending r) < fuel ->
  exists st r' w',
    loop fuel r w = Some (st, r', w') /\
    written w' = written w ++ firstn b (pending r) /\
    (st = WriteError <-> b < length (pending r)).
Proof.
  induction fuel as [|fuel IH]; intros r w b Hb Hfuel; [lia|].
  destruct (list_eq_dec ascii_dec (pending r) []) as [Hp|Hp].
  - rewrite (loop_closed fuel r w Hp). eexists _, r, w.
    split; [reflexivity|].
    rewrite Hp, firstn_nil, app_nil_r. split; [reflexivity|].
    cbn [length]. split; [destruct (ending r); discriminate | lia].
  - rewrite (loop_data fuel r w Hp).
    pose proof (chunk_length r Hp) as Hlen.
    pose proof (advance_length r Hp) as Hadv.
    pose proof (chunk_advance r) as Hsplit.
    unfold _write, sendall. rewrite Hb.
    destruct (length (chunk r) <=? b) eqn:Hle.
    + apply Nat.leb_le in Hle.
      destruct (IH (advance r)
                  (mkWsock (written w ++ chunk r) (calls w ++ [chunk r])
                     (Some (b - length (chunk r))) (shut w))
                  (b - length (chunk r)) eq_refl)
        as (st & r' & w' & Hrun & Hw & Hst); [lia|].
      exists st, r', w'. split; [exact Hrun|]. cbn [written] in Hw. split.
      * rewrite Hw, <- app_assoc. f_equal.
        unfold chunk, advance in *. cbn [pending].
        rewrite <- firstn_add_skipn. f_equal. lia.
      * rewrite Hst.
        assert (Hl : length (pending r)
                     = length (chunk r) + length (pending (advance r)))
          by (rewrite Hsplit at 1; apply length_app).
        lia.
    + apply Nat.leb_gt in Hle.
      eexists WriteError, (advance r), _. split; [reflexivity|].
      cbn [written]. unfold chunk in *. rewrite length_firstn in Hle. split.
      * f_equal. rewrite firstn_firstn. f_equal. lia.
      * split; [intros _; lia | reflexivity].
Qed.

End BudgetFacts.

Section RelayExamples.
Import ProxyData RelaySpec.

(** A zero-length payload: nothing is written, the loop ends on the
    end-of-stream. *)
Example relay_zero_length :
  _run (mkRsock [] [] Eof) fresh_wsock = Some (SourceEof, mkRsock [] [] Eof,
                                        mkWsock [] [] None true).
Proof. reflexivity. Qed.

(** A single byte. *)
Example relay_single_byte :
  _run (mkRsock (payload 1) [] Eof) fresh_wsock
  = Some (SourceEof, mkRsock [] [] Eof,
          mkWsock (payload 1) [payload 1] None true).
Proof. vm_compute. reflexivity. Qed.

(** 50000 bytes through the 8192-byte buffer: six full chunks and one of
    848 bytes, the payload unchanged. *)
Example relay_50000_bytes :
  match _run (mkRsock (payload (50 * 1000)) [] Eof) fresh_wsock with
  | Some (SourceEof, _, w') =>
      str_eqb (written w') (payload (50 * 1000))
      && forallb2 Nat.eqb (map (@length ascii) (calls w'))
           [BUFLEN; BUFLEN; BUFLEN; BUFLEN; BUFLEN; BUFLEN; 848]
  | _ => false
  end = true.
Proof. vm_compute. reflexivity. Qed.
End RelayExamples.

(** C8. Each relay direction copies what it reads, unmodified and in order:
    [_run] always returns; the byte strings it handed to [sendall] (the
    [chunks]) are each between 1 and 8192 bytes long and, put end to end, are
    exactly the bytes taken from the source, in order. The loop is left on a
    write error exactly when the destination fails before it has taken all
    the source had to deliver, and then exactly the bytes the destination
    still took have been written; otherwise it is left when the source ends,
    on end-of-stream or on a read error as the source ends, with every byte
    the source delivered written and nothing left to read. The destination
    is shut down at the end. *)
Theorem relay_direction_copies_in_order
    (r : ProxyData.rsock) (w : ProxyData.wsock) :
  exists st r' w' chunks,
    ProxyData._run r w = Some (st, r', w') /\
    ProxyData.calls w' = ProxyData.calls w ++ chunks /\
    Forall (fun c => 1 <= length c /\ (Z.of_nat (length c) <= 8192)%Z) chunks /\
    ProxyData.pending r = concat chunks ++ ProxyData.pending r' /\
    (st <> ProxyData.WriteError ->
       ProxyData.pending r' = [] /\
       ProxyData.written w' = ProxyData.written w ++ ProxyData.pending r) /\
    (st = ProxyData.WriteError ->
       exists b,
         ProxyData.budget w = Some b /\
         b < length (ProxyData.pending r) /\
         ProxyData.written w'
         = ProxyData.written w ++ firstn b (ProxyData.pending r)) /\
    (forall b,
       ProxyData.budget w = Some b -> b < length (ProxyData.pending r) ->
       st = ProxyData.WriteError) /\
    (st = ProxyData.SourceEof <->
       st <> ProxyData.WriteError /\ ProxyData.ending r = ProxyData.Eof) /\
    (st = ProxyData.SourceError <->
       st <> ProxyData.WriteError /\ ProxyData.ending r = ProxyData.Reset) /\
    ProxyData.shut w' = true.
Proof.
  assert (Hfuel : length (ProxyData.pending r)
                  < S (length (ProxyData.pending r))) by lia.
  destruct (ProxyDataFacts.loop_copies _ r w Hfuel) as
    (st & r' & w' & chunks & Hrun & [C1 C2 C3 C4 C5 C6 C7 C8]).
  assert (Hbudget : forall b, ProxyData.budget w = Some b ->
            ProxyData.written w'
            = ProxyData.written w ++ firstn b (ProxyData.pending r) /\
            (st = ProxyData.WriteError <-> b < length (ProxyData.pending r))).
  { intros b Hb.
    destruct (BudgetFacts.loop_budget _ r w b Hb Hfuel)
      as (st2 & r2 & w2 & Hrun2 & Hw2 & Hst2).
    rewrite Hrun in Hrun2. injection Hrun2 as <- <- <-. now split. }
  exists st, r', (ProxyData.shutdown w'), chunks.
  unfold ProxyData._run. rewrite Hrun.
  cbn [ProxyData.shutdown ProxyData.calls ProxyData.written ProxyData.shut].
  repeat match goal with |- _ /\ _ => split end; auto.
  - eapply Forall_impl; [|exact C2]. intros c [H1 H2]. split; [exact H1|].
    rewrite <- ProxyDataFacts.BUFLEN_value. now apply Nat2Z.inj_le.
  - intros Hst. destruct (C4 Hst). now split.
  - intros Hst. destruct (C5 Hst) as [Hb _].
    destruct (ProxyData.budget w) as [b|] eqn:Eb; [|congruence].
    destruct (Hbudget b eq_refl) as [Hw Hiff].
    exists b. split; [reflexivity|]. split; [now apply Hiff | exact Hw].
  - intros b Hb Hlt. now apply (Hbudget b Hb).
  - split.
    + intros ->. split; [discriminate | now apply C6].
    + intros [Hne He]. destruct st; try congruence.
      specialize (C7 eq_refl). congruence.
  - split.
    + intros ->. split; [discriminate | now apply C7].
    + intros [Hne He]. destruct st; try congruence.
      specialize (C6 eq_refl). congruence.
Qed.

(** ** The request parser *)

Module ParserFacts.

Lemma recv_loop_done (c : nat) (data conn : str) :
  2 <= c -> recv_loop c data conn = Some (data, conn).
Proof.
  intros H. destruct conn; cbn [recv_loop];
    now rewrite (proj2 (Nat.leb_le 2 c) H).
Qed.

Lemma recv_loop_closed (c : nat) (data : str) :
  c < 2 -> recv_loop c data [] = None.
Proof.
  intros H. cbn [recv_loop]. now rewrite (proj2 (Nat.leb_gt 2 c) H).
Qed.

Lemma recv_loop_cons (c : nat) (data : str) (b : ascii) (conn : str) :
  c < 2 ->
  recv_loop c data (b :: conn)
  = recv_loop (lf_step c b) (data ++ remove_cr [b]) conn.
Proof.
  intros H. cbn [recv_loop]. rewrite (proj2 (Nat.leb_gt 2 c) H).
  unfold lf_step, remove_cr. cbn [filter].
  destruct (Ascii.eqb b CR); cbn [negb]; [now rewrite app_nil_r|].
  reflexivity.
Qed.

Lemma remove_cr_app (a b : str) : remove_cr (a ++ b) = remove_cr a ++ remove_cr b.
Proof. apply filter_app. Qed.

Lemma remove_cr_cons (b : ascii) (s : str) :
  remove_cr (b :: s)
  = if Ascii.eqb b CR then remove_cr s else b :: remove_cr s.
Proof. unfold remove_cr. cbn [filter]. now destruct (Ascii.eqb b CR). Qed.

Lemma lf_run_app (c : nat) (a b : str) :
  lf_run c (a ++ b) = lf_run (lf_run c a) b.
Proof. apply fold_left_app. Qed.

Lemma lf_step_two (c : nat) (b : ascii) :
  c < 2 -> 2 <= lf_step c b -> b = LF.
Proof.
  unfold lf_step. intros Hc H.
  destruct (Ascii.eqb b CR); [lia|].
  destruct (Ascii.eqb b LF) eqn:E; [now apply Ascii.eqb_eq | lia].
Qed.

(** What the loop returns: the shortest prefix [head] of the stream that
    brings the counter to two, with the bytes of [head] other than [\r]
    appended to [data]; [None] when no prefix does. *)
Lemma recv_loop_spec (conn : str) :
  forall c data,
    match recv_loop c data conn with
    | Some (data', rest) =>
        exists head,
          conn = head ++ rest /\ data' = data ++ remove_cr head /\
          2 <= lf_run c head /\
          (c < 2 -> exists h, head = h ++ [LF]) /\
          (forall q q', head = q ++ q' -> q' <> [] -> lf_run c q < 2)
    | None => forall q q', conn = q ++ q' -> lf_run c q < 2
    end.
Proof.
  induction conn as [|b conn IH]; intros c data.
  - destruct (Nat.lt_ge_cases c 2) as [Hc|Hc].
    + rewrite (recv_loop_closed c data Hc). intros q q' E.
      symmetry in E. apply app_eq_nil in E. destruct E; subst. exact Hc.
    + rewrite (recv_loop_done c data [] Hc). now_done.
  - destruct (Nat.lt_ge_cases c 2) as [Hc|Hc].
    + rewrite (recv_loop_cons c data b conn Hc).
      specialize (IH (lf_step c b) (data ++ remove_cr [b])).
      destruct (recv_loop (lf_step c b) (data ++ remove_cr [b]) conn)
        as [[data' rest]|].
      * destruct IH as (head & E1 & E2 & E3 & E4 & E5).
        exists (b :: head). repeat split.
        -- cbn. now rewrite E1.
        -- rewrite E2, <- app_assoc. f_equal.
           symmetry. apply (remove_cr_app [b] head).
        -- exact E3.
        -- intros _. destruct (Nat.lt_ge_cases (lf_step c b) 2) as [H|H].
           ++ destruct (E4 H) as [h Hh]. exists (b :: h). now rewrite Hh.
           ++ destruct head as [|x head].
              ** exists []. now rewrite (lf_step_two c b Hc H).
              ** exfalso. specialize (E5 [] (x :: head) eq_refl).
                 cbn in E5. assert (x :: head <> []) by discriminate.
                 specialize (E5 H0). lia.
        -- intros q q' E Hq'. destruct q as [|y q]; [exact Hc|].
           cbn in E. injection E as -> E. cbn. now apply (E5 q q').
      * intros q q' E. destruct q as [|y q]; [exact Hc|].
        cbn in E. injection E as -> E. cbn. now apply (IH q q').
    + rewrite (recv_loop_done c data (b :: conn) Hc). now_done.
Qed.

(** The counter counts the line terminators that end the bytes read so
    far, [\r] aside. *)
Lemma lf_run_trailing (q : str) :
  (1 <= lf_run 0 q <-> exists d, remove_cr q = d ++ [LF]) /\
  (2 <= lf_run 0 q <-> ends_head q).
Proof.
  unfold ends_head.
  induction q as [|b q [IH1 IH2]] using rev_ind.
  - cbn. split; split; try lia; intros [d Hd]; destruct d as [|? [|? ?]];
      discriminate.
  - rewrite lf_run_app, remove_cr_app. cbn [lf_run fold_left].
    assert (Hr : remove_cr [b] = if Ascii.eqb b CR then [] else [b])
      by (unfold remove_cr; cbn; now destruct (Ascii.eqb b CR)).
    rewrite Hr. unfold lf_step.
    destruct (Ascii.eqb b CR) eqn:Ecr.
    + rewrite !app_nil_r. now split.
    + destruct (Ascii.eqb b LF) eqn:Elf.
      * apply Ascii.eqb_eq in Elf. subst b. split; split.
        -- intros _. now exists (remove_cr q).
        -- intros _. lia.
        -- intros H. assert (H1 : 1 <= lf_run 0 q) by lia.
           apply IH1 in H1. destruct H1 as [d Hd]. exists d.
           now rewrite Hd, <- app_assoc.
        -- intros [d Hd].
           change (d ++ [LF; LF]) with (d ++ [LF] ++ [LF]) in Hd.
           rewrite app_assoc in Hd. apply app_inj_tail in Hd.
           destruct Hd as [Hd _].
           assert (1 <= lf_run 0 q) by (apply IH1; now exists d). lia.
      * apply Ascii.eqb_neq in Elf. split; split; try lia.
        -- intros [d Hd]. apply app_inj_tail in Hd. destruct Hd. congruence.
        -- intros [d Hd].
           change (d ++ [LF; LF]) with (d ++ [LF] ++ [LF]) in Hd.
           rewrite app_assoc in Hd. apply app_inj_tail in Hd.
           destruct Hd. congruence.
Qed.

Lemma recv_loop_found (conn p rest0 : str) :
  conn = p ++ rest0 -> ends_head p ->
  exists data head rest,
    recv_loop 0 [] conn = Some (data, rest) /\
    conn = head ++ rest /\ data = remove_cr head /\ ends_head head /\
    (exists h, head = h ++ [LF]) /\
    (forall q q', head = q ++ q' -> q' <> [] -> ~ ends_head q).
Proof.
  intros Hconn Hp. pose proof (recv_loop_spec conn 0 []) as H.
  destruct (recv_loop 0 [] conn) as [[data rest]|].
  - destruct H as (head & E1 & E2 & E3 & E4 & E5).
    exists data, head, rest. repeat split; auto.
    + now apply lf_run_trailing.
    + intros q q' E Hq' Hq. apply lf_run_trailing in Hq.
      specialize (E5 q q' E Hq'). lia.
  - exfalso. specialize (H p rest0 Hconn).
    apply lf_run_trailing in Hp. lia.
Qed.

(** [\r] never matters to the loop. *)
Lemma recv_loop_remove_cr (conn : str) :
  forall c data,
    recv_loop c data (remove_cr conn)
    = option_map (fun dr => (fst dr, remove_cr (snd dr)))
                 (recv_loop c data conn).
Proof.
  induction conn as [|b conn IH]; intros c data.
  - cbn [remove_cr filter]. destruct (Nat.lt_ge_cases c 2) as [Hc|Hc].
    + now rewrite (recv_loop_closed c data Hc).
    + now rewrite (recv_loop_done c data [] Hc).
  - destruct (Nat.lt_ge_cases c 2) as [Hc|Hc].
    + rewrite (recv_loop_cons c data b conn Hc), <- IH, remove_cr_cons.
      destruct (Ascii.eqb b CR) eqn:E.
      * unfold lf_step. rewrite (remove_cr_cons b []), E.
        cbn [remove_cr filter]. now rewrite app_nil_r.
      * now apply recv_loop_cons.
    + now rewrite !recv_loop_done by assumption.
Qed.

(** Reading a run of bytes that holds no line terminator. *)
Lemma recv_loop_plain (line : str) :
  forall c data more,
    c < 2 -> ~ In LF line ->
    recv_loop c data (line ++ more)
    = recv_loop (match remove_cr line with [] => c | _ => 0 end)
                (data ++ remove_cr line) more.
Proof.
  induction line as [|b line IH]; intros c data more Hc Hlf.
  - cbn. now rewrite app_nil_r.
  - cbn [app]. rewrite (recv_loop_cons c data b _ Hc).
    assert (Hb : b <> LF) by (intros ->; apply Hlf; now left).
    assert (Hl : ~ In LF line) by (intros H; apply Hlf; now right).
    apply Ascii.eqb_neq in Hb.
    unfold lf_step. rewrite Hb, (remove_cr_cons b []), (remove_cr_cons b line).
    cbn [remove_cr filter].
    destruct (Ascii.eqb b CR).
    + rewrite app_nil_r. now apply IH.
    + rewrite IH by (auto; lia). rewrite <- app_assoc. cbn [app].
      now destruct (remove_cr line).
Qed.

End ParserFacts.

Module SplitFacts.

Lemma split_on_incl (c : ascii) (s : str) :
  forall piece, In piece (split_on c s) -> incl piece s.
Proof.
  induction s as [|x s IH]; intros piece Hin.
  - cbn in Hin. destruct Hin as [<-|[]]. apply incl_refl.
  - cbn [split_on] in Hin. destruct (Ascii.eqb x c).
    + destruct Hin as [<-|Hin]; [apply incl_nil_l|].
      apply incl_tl. now apply IH.
    + destruct (split_on c s) as [|w ws].
      * destruct Hin as [<-|[]]. apply incl_cons; [now left | apply incl_nil_l].
      * destruct Hin as [<-|Hin].
        -- apply incl_cons; [now left|]. apply incl_tl, IH. now left.
        -- apply incl_tl, IH. now right.
Qed.

Lemma cut_colon_space_incl (s : str) :
  forall a b, cut_colon_space s = Some (a, b) -> incl a s /\ incl b s.
Proof.
  induction s as [|x s IH]; intros a b H; [discriminate|].
  cbn [cut_colon_space] in H. destruct s as [|y s']; [discriminate|].
  destruct (Ascii.eqb x ":" && Ascii.eqb y " ").
  - injection H as <- <-. split; [apply incl_nil_l|].
    now apply incl_tl, incl_tl, incl_refl.
  - destruct (cut_colon_space (y :: s')) as [[a' b']|]; [|discriminate].
    injection H as <- <-. destruct (IH a' b' eq_refl) as [Ha Hb]. split.
    + apply incl_cons; [now left | now apply incl_tl].
    + now apply incl_tl.
Qed.

(** Splitting at a separator that occurs nowhere in the first piece. *)
Lemma split_on_app (c : ascii) (a b : str) :
  ~ In c a -> split_on c (a ++ c :: b) = a :: split_on c b.
Proof.
  induction a as [|x a IH]; intros H.
  - cbn. now rewrite Ascii.eqb_refl.
  - cbn [app split_on].
    assert (Hx : Ascii.eqb x c = false)
      by (apply Ascii.eqb_neq; intros ->; apply H; now left).
    rewrite Hx, IH; [reflexivity|]. intros Hin. apply H. now right.
Qed.

Lemma split_on_whole (c : ascii) (a : str) :
  ~ In c a -> split_on c a = [a].
Proof.
  induction a as [|x a IH]; intros H; [reflexivity|].
  cbn [split_on].
  assert (Hx : Ascii.eqb x c = false)
    by (apply Ascii.eqb_neq; intros ->; apply H; now left).
  rewrite Hx, IH; [reflexivity|]. intros Hin. apply H. now right.
Qed.


End SplitFacts.

Module CleanFacts.
Import SplitFacts.

Lemma no_cr_incl (a s : str) : incl a s -> no_cr s -> no_cr a.
Proof. unfold no_cr. intros Hi Hs Ha. apply Hs, Hi, Ha. Qed.

Lemma remove_cr_clean (s : str) : no_cr (remove_cr s).
Proof.
  unfold no_cr, remove_cr. intros H. apply filter_In in H.
  destruct H as [_ H]. now rewrite Ascii.eqb_refl in H.
Qed.

Lemma add_lines_clean (lines : list str) :
  Forall no_cr lines ->
  forall msg msg',
    Forall (fun kv => no_cr (fst kv) /\ no_cr (snd kv)) msg ->
    add_lines lines msg = Ret msg' ->
    Forall (fun kv => no_cr (fst kv) /\ no_cr (snd kv)) msg'.
Proof.
  induction 1 as [|line lines Hline Hlines IH]; intros msg msg' Hmsg H.
  - cbn in H. now injection H as <-.
  - cbn [add_lines] in H. destruct line as [|x line].
    + now injection H as <-.
    + destruct (cut_colon_space (x :: line)) as [[name value]|] eqn:E;
        [|discriminate].
      apply cut_colon_space_incl in E. destruct E as [Hn Hv].
      eapply IH; [|exact H]. unfold HTTPMessage.add_header.
      apply Forall_app. split; [exact Hmsg|]. constructor; [|constructor].
      split; cbn; eapply no_cr_incl; eauto.
Qed.

Lemma parse_lines_clean (text : str) (r : Request) :
  no_cr text -> parse_lines text = Ret r -> cr_free r.
Proof.
  intros Ht H. unfold parse_lines in H.
  pose proof (split_on_incl LF text) as Hpieces.
  destruct (split_on LF text) as [|first lines]; [discriminate|].
  pose proof (split_on_incl SP first) as Hfields.
  assert (Hfirst : no_cr first)
    by (eapply no_cr_incl; [apply Hpieces; now left | exact Ht]).
  destruct (split_on SP first) as [|m [|p0 [|v [|? ?]]]]; try discriminate.
  destruct (add_lines lines HTTPMessage.empty) as [msg|] eqn:E;
    [|discriminate].
  injection H as <-. unfold cr_free. cbn.
  repeat split.
  - eapply no_cr_incl; [apply Hfields; cbn; tauto | exact Hfirst].
  - eapply no_cr_incl; [apply Hfields; cbn; tauto | exact Hfirst].
  - eapply no_cr_incl; [apply Hfields; cbn; tauto | exact Hfirst].
  - eapply add_lines_clean; [| |exact E]; [|constructor].
    apply Forall_forall. intros l Hl.
    eapply no_cr_incl; [apply Hpieces; now right | exact Ht].
Qed.

Lemma parse_request_clean (conn : str) (r : Request) (rest : str) :
  parse_request conn = (Ret (Some r), rest) -> cr_free r.
Proof.
  unfold parse_request. intros H.
  pose proof (ParserFacts.recv_loop_spec conn 0 []) as Hspec.
  destruct (recv_loop 0 [] conn) as [[data rest']|]; [|discriminate].
  destruct Hspec as (head & _ & Hdata & _). cbn in Hdata. subst data.
  unfold decode_ascii in H.
  destruct (forallb is_ascii (remove_cr head)); [|discriminate].
  destruct (parse_lines (remove_cr head)) as [r'|] eqn:E; [|discriminate].
  injection H as <- _. eapply parse_lines_clean; [|exact E].
  apply remove_cr_clean.
Qed.

End CleanFacts.

(** C7. The parser reads up to the end of the header block and not a byte
    further: on a client stream that contains a complete header block, the
    read loop returns, the bytes it has taken ([head]) are a prefix of the
    stream that ends with the second line terminator of the blank line, no
    shorter prefix ends a header block, and the connection is left at the
    first byte after it ([rest]). *)
Theorem parser_stops_at_header_boundary (conn : str) :
  (exists p rest0, conn = p ++ rest0 /\ ends_head p) ->
  exists data head rest,
    recv_loop 0 [] conn = Some (data, rest) /\
    snd (parse_request conn) = rest /\
    conn = head ++ rest /\
    data = remove_cr head /\
    ends_head head /\
    (exists h, head = h ++ [LF]) /\
    (forall q q', head = q ++ q' -> q' <> [] -> ~ ends_head q).
Proof.
  intros (p & rest0 & Hconn & Hp).
  destruct (ParserFacts.recv_loop_found conn p rest0 Hconn Hp)
    as (data & head & rest & Hloop & H).
  exists data, head, rest. split; [exact Hloop|]. split; [|exact H].
  unfold parse_request. now rewrite Hloop.
Qed.

Lemma parser_stops_at_header_boundary_witness :
  exists data head rest,
    recv_loop 0 [] ($"GET / HTTP/1.1" ++ CRLF ++ CRLF ++ $"BODY")
      = Some (data, rest) /\
    snd (parse_request ($"GET / HTTP/1.1" ++ CRLF ++ CRLF ++ $"BODY")) = rest /\
    $"GET / HTTP/1.1" ++ CRLF ++ CRLF ++ $"BODY" = head ++ rest /\
    data = remove_cr head /\
    ends_head head /\
    (exists h, head = h ++ [LF]) /\
    (forall q q', head = q ++ q' -> q' <> [] -> ~ ends_head q).
Proof.
  apply (parser_stops_at_header_boundary
           ($"GET / HTTP/1.1" ++ CRLF ++ CRLF ++ $"BODY")).
  exists ($"GET / HTTP/1.1" ++ CRLF ++ CRLF), ($"BODY").
  split; [reflexivity|]. exists ($"GET / HTTP/1.1"). reflexivity.
Defined.

(** The stream is left at the body on the sample request. *)
Example parser_leaves_body :
  parse_request ($"GET / HTTP/1.1" ++ CRLF ++ CRLF ++ $"BODY")
  = (Ret (Some (mkRequest $"GET" $"/" $"HTTP/1.1" [])), $"BODY").
Proof. reflexivity. Qed.

(** C10. The parser discards every [\r], wherever it stands: no field of a
    parsed request holds one; a [\r] changes neither the collected data nor
    the count of consecutive line terminators; the request parsed from a
    stream is the one parsed from the same stream without its [\r] bytes;
    and [\n\r\n] ends the header block. *)
Theorem parser_drops_every_cr :
  (forall conn r rest, parse_request conn = (Ret (Some r), rest) -> cr_free r) /\
  (forall c data conn,
     c < 2 -> recv_loop c data (CR :: conn) = recv_loop c data conn) /\
  (forall conn, fst (parse_request (remove_cr conn)) = fst (parse_request conn)) /\
  (forall pre rest,
     ~ In LF pre ->
     recv_loop 0 [] (pre ++ LF :: CR :: LF :: rest)
     = Some (remove_cr pre ++ [LF; LF], rest)).
Proof.
  split; [exact CleanFacts.parse_request_clean|].
  split; [|split].
  - intros c data conn Hc.
    rewrite (ParserFacts.recv_loop_cons c data CR conn Hc).
    cbn. now rewrite app_nil_r.
  - intros conn. unfold parse_request.
    rewrite (ParserFacts.recv_loop_remove_cr conn 0 []).
    now destruct (recv_loop 0 [] conn) as [[data rest]|].
  - intros pre rest Hpre.
    rewrite (ParserFacts.recv_loop_plain pre 0 [] _ (Nat.lt_0_2) Hpre).
    replace (match remove_cr pre with [] => 0 | _ :: _ => 0 end) with 0
      by now destruct (remove_cr pre).
    cbn [app].
    rewrite (ParserFacts.recv_loop_cons 0 _ LF _ Nat.lt_0_2).
    change (lf_step 0 LF) with 1. change (remove_cr [LF]) with [LF].
    rewrite (ParserFacts.recv_loop_cons 1 _ CR _ Nat.lt_1_2).
    change (lf_step 1 CR) with 1. change (remove_cr [CR]) with (@nil ascii).
    rewrite (ParserFacts.recv_loop_cons 1 _ LF _ Nat.lt_1_2).
    change (lf_step 1 LF) with 2. change (remove_cr [LF]) with [LF].
    rewrite ParserFacts.recv_loop_done by lia.
    now rewrite app_nil_r, <- app_assoc.
Qed.

(** A [\r] inside the request target and inside a header value is deleted,
    and the head ends at [\n\r\n]. *)
Example parser_drops_inner_cr :
  parse_request ($"GET /a" ++ [CR] ++ $"b HTTP/1.1" ++ [LF]
                 ++ $"Host: ex" ++ [CR] ++ $"ample" ++ [LF; CR; LF] ++ $"x")
  = (Ret (Some (mkRequest $"GET" $"/ab" $"HTTP/1.1" [($"Host", $"example")])),
     $"x").
Proof. reflexivity. Qed.

(** ** Well-formed request heads *)

Module WellFormedFacts.
Import SplitFacts ParserFacts.















End WellFormedFacts.



(** Two values under one name, asked for in another spelling. *)
Example lookup_ignores_case :
  HTTPMessage.get_all $"ACCEPT"
    [($"Host", $"example.com"); ($"Accept", $"a"); ($"accept", $"b")]
  = Some [ $"a"; $"b" ].
Proof. reflexivity. Qed.

(** ** The handlers: traces *)

Module TraceFacts.

Lemma bind_ret {A B} (a : A) (k : A -> M B) : bind (ret a) k = k a.
Proof. unfold bind, ret. now destruct (k a). Qed.

Lemma bind_raise {A B} (e : exn) (k : A -> M B) : bind (raise e) k = raise e.
Proof. reflexivity. Qed.

Lemma join_lines (sep x : str) (l : list str) :
  join sep (x :: l) ++ sep = x ++ sep ++ concat (map (fun y => y ++ sep) l).
Proof.
  revert x. induction l as [|y l IH]; intros x.
  - cbn. now rewrite app_nil_r.
  - cbn [join map concat]. cbn [join] in IH.
    rewrite <- !app_assoc. f_equal. f_equal. rewrite <- IH.
    now destruct l.
Qed.

(** The bytes of a forwarded request, line by line. *)
Lemma request_bytes_lines (m uri : str) (msg : HTTPMessage.t) :
  request_bytes m uri msg
  = m ++ $" " ++ uri ++ $" HTTP/1.0" ++ CRLF
    ++ concat (map (fun kv => header_line kv ++ CRLF) msg) ++ CRLF.
Proof.
  unfold request_bytes, HTTPMessage.items.
  rewrite app_assoc, join_lines, map_map. now rewrite <- !app_assoc.
Qed.

Section WithEnv.
Variable env : Env.

Lemma send_cases (s : side) (data : str) :
  send env s data = ([Send s data true], Ret tt) \/
  send env s data = ([Send s data false], Raise OSError).
Proof. unfold send. destruct (send_ok env s data); [now left | now right]. Qed.

Lemma read_write_cases :
  _read_write env = ([Relay], Ret tt) \/
  exists e, _read_write env = ([Relay], Raise e).
Proof.
  unfold _read_write. destruct (relay_exn env) as [e|];
    [right; now exists e | now left].
Qed.

Lemma forward_trace (s : side) (data : str) :
  after_dial s data
    (trace (finally (send env s data ;;; _read_write env) Far)).
Proof.
  unfold after_dial.
  destruct (send_cases s data) as [E|E]; rewrite E.
  - exists true. destruct read_write_cases as [R|[e R]]; now rewrite R.
  - now exists false.
Qed.

(** The three ways a [connect] inside [try/except OSError] can go. *)
Lemma connect_cases (host : str) (port : Z) (on_error : M unit) :
  connect env host port on_error = ([Connect host port None], Ret true) \/
  (dial env host port = Some OSError /\
   connect env host port on_error
   = (emit (Connect host port (Some OSError)) ;;; on_error ;;; ret false)) \/
  (exists e, e <> OSError /\
     connect env host port on_error
     = ([Connect host port (Some e)], Raise e)).
Proof.
  unfold connect. destruct (dial env host port) as [e|]; [|now left].
  destruct e; try (right; right; eexists; split;
                   [|reflexivity]; discriminate).
  right; left. now split.
Qed.

(** [_connect_to]: no event at all when the target cannot be read, one
    dial otherwise; [true] exactly for a successful dial. *)
Lemma connect_to_cases (nl : str) :
  (exists e, _connect_to env nl = ([], Raise e)) \/
  (exists host port,
     _connect_to env nl = ([Connect host port None], Ret true)) \/
  (exists host port,
     _connect_to env nl = ([Connect host port (Some OSError)], Ret false)) \/
  (exists host port e,
     e <> OSError /\
     _connect_to env nl = ([Connect host port (Some e)], Raise e)).
Proof.
  unfold _connect_to.
  assert (H : forall hp : str * Z,
             (exists host port,
                connect env (fst hp) (snd hp) (ret tt)
                = ([Connect host port None], Ret true)) \/
             (exists host port,
                connect env (fst hp) (snd hp) (ret tt)
                = ([Connect host port (Some OSError)], Ret false)) \/
             (exists host port e,
                e <> OSError /\
                connect env (fst hp) (snd hp) (ret tt)
                = ([Connect host port (Some e)], Raise e))).
  { intros [h p]. cbn [fst snd].
    destruct (connect_cases h p (ret tt)) as [E|[[_ E]|[e [Hne E]]]].
    - left. now exists h, p.
    - right; left. exists h, p. now rewrite E.
    - right; right. now exists h, p, e. }
  destruct (mem ":" nl).
  - destruct (split_on ":" nl) as [|host [|port [|? ?]]];
      try (left; eexists; reflexivity).
    destruct (py_int env port) as [n|]; [|left; eexists; reflexivity].
    rewrite bind_ret. right. apply H.
  - rewrite bind_ret. right. apply H.
Qed.

End WithEnv.
End TraceFacts.

(** ** CONNECT in direct mode *)

Module ConnectFacts.
Import TraceFacts.

Lemma direct_connect (env : Env) (r : Request) :
  method r = $"CONNECT" ->
  handle_request env Direct r = do_CONNECT env Direct r.
Proof. intros H. unfold handle_request. now rewrite H. Qed.

Lemma do_CONNECT_cases (env : Env) (r : Request) :
  trace (do_CONNECT env Direct r) = [] \/
  (exists host port e,
     trace (do_CONNECT env Direct r) = [Connect host port (Some e)]) \/
  (exists host port ok,
     trace (do_CONNECT env Direct r)
     = Connect host port None
       :: Send Near connect_reply ok
       :: (if ok then [Relay] else []) ++ [Close Far]).
Proof.
  unfold do_CONNECT.
  destruct (connect_to_cases env (path r))
    as [[e E]|[(h & p & E)|[(h & p & E)|(h & p & e & _ & E)]]]; rewrite E.
  - now left.
  - right; right.
    match goal with
    | |- context [finally ?b Far] =>
        destruct (forward_trace env Near connect_reply) as [ok Hok];
        change b with (send env Near connect_reply ;;; _read_write env)
    end.
    exists h, p, ok. unfold bind at 1. cbn [negb].
    destruct (finally _ Far) as [t res]. cbn [trace fst] in *. now subst t.
  - right; left. now exists h, p, OSError.
  - right; left. now exists h, p, e.
Qed.

End ConnectFacts.

(** C4 (as the code has it). A CONNECT whose target holds no [':'] is not
    rejected: the direct-mode handler dials the whole target as the host,
    on the default port 80. *)
Theorem connect_without_port_dials_80 (env : Env) (r : Request) :
  method r = $"CONNECT" ->
  mem ":" (path r) = false ->
  exists rest,
    trace (handle_request env Direct r)
    = Connect (path r) 80 (dial env (path r) 80%Z) :: rest.
Proof.
  intros Hm Hcolon. rewrite (ConnectFacts.direct_connect env r Hm).
  unfold do_CONNECT, _connect_to. rewrite Hcolon, TraceFacts.bind_ret.
  cbn [fst snd]. unfold connect.
  destruct (dial env (path r) 80%Z) as [e|].
  - destruct e; cbn; eexists; reflexivity.
  - cbn [bind emit ret app negb].
    destruct (finally _ Far) as [t res]. eexists. reflexivity.
Qed.

Lemma connect_without_port_dials_80_witness :
  exists rest,
    trace (handle_request calm Direct
             (mkRequest $"CONNECT" $"example.com" $"HTTP/1.1" []))
    = Connect $"example.com" 80 None :: rest.
Proof.
  apply (connect_without_port_dials_80 calm
           (mkRequest $"CONNECT" $"example.com" $"HTTP/1.1" []));
    reflexivity.
Defined.

(** C4 as stated fails: the request is not rejected, a connection to port
    80 is opened and the tunnel is set up. *)
Lemma connect_without_port_counterexample :
  trace (handler calm Direct ($"CONNECT example.com HTTP/1.1" ++ CRLF ++ CRLF))
  = [ Connect $"example.com" 80 None; Send Near connect_reply true; Relay;
      Close Far; Close Near ]
  /\ ~ no_dial (trace (handler calm Direct
                         ($"CONNECT example.com HTTP/1.1" ++ CRLF ++ CRLF))).
Proof.
  split; [reflexivity|].
  intros H. apply (H $"example.com" 80%Z None). now left.
Qed.

(** C5 (as the code has it). After a successful dial for a CONNECT request
    the direct-mode handler sends the client the fixed reply, whose status
    line always says [HTTP/1.1], and only then relays. *)
Theorem connect_reply_is_fixed (env : Env) (r : Request) (host : str) (port : Z) :
  method r = $"CONNECT" ->
  In (Connect host port None) (trace (handle_request env Direct r)) ->
  exists ok,
    trace (handle_request env Direct r)
    = Connect host port None
      :: Send Near connect_reply ok
      :: (if ok then [Relay] else []) ++ [Close Far].
Proof.
  intros Hm Hin. rewrite (ConnectFacts.direct_connect env r Hm) in *.
  destruct (ConnectFacts.do_CONNECT_cases env r)
    as [E|[(h & p & e & E)|(h & p & ok & E)]].
  - rewrite E in Hin. contradiction.
  - rewrite E in Hin. destruct Hin as [Hin|[]]. discriminate.
  - rewrite E in *. exists ok.
    destruct Hin as [Hin|Hin]; [now injection Hin as -> ->|].
    exfalso. destruct Hin as [Hin|Hin]; [discriminate|].
    destruct ok; cbn in Hin; intuition discriminate.
Qed.

Lemma connect_reply_is_fixed_witness :
  exists ok,
    trace (handle_request calm Direct
             (mkRequest $"CONNECT" $"example.com:443" $"HTTP/1.0" []))
    = Connect $"example.com" 443 None
      :: Send Near connect_reply ok
      :: (if ok then [Relay] else []) ++ [Close Far].
Proof.
  apply (connect_reply_is_fixed calm
           (mkRequest $"CONNECT" $"example.com:443" $"HTTP/1.0" [])
           $"example.com" 443%Z); [reflexivity | now left].
Defined.

(** C5 as stated fails: to a client that speaks HTTP/1.0 the reply still
    says HTTP/1.1; and in bridge mode the handler itself writes nothing back
    to the client, the CONNECT is forwarded like any other request. *)
Lemma connect_reply_version_counterexample :
  fst (parse_request ($"CONNECT example.com:443 HTTP/1.0" ++ CRLF ++ CRLF))
  = Ret (Some (mkRequest $"CONNECT" $"example.com:443" $"HTTP/1.0" []))
  /\ trace (handler calm Direct
              ($"CONNECT example.com:443 HTTP/1.0" ++ CRLF ++ CRLF))
     = [ Connect $"example.com" 443 None; Send Near connect_reply true; Relay;
         Close Far; Close Near ]
  /\ connect_reply <> reply_in_version $"HTTP/1.0"
  /\ trace (handler calm (Bridge false)
              ($"CONNECT example.com:443 HTTP/1.0" ++ CRLF ++ CRLF))
     = [ Connect $"127.0.0.1" 9090 None;
         Send Far ($"CONNECT example.com:443 HTTP/1.0" ++ CRLF ++ CRLF) true;
         Relay; Close Far; Close Near ].
Proof.
  split; [reflexivity|]. split; [reflexivity|].
  split; [apply str_eqb_neq; reflexivity | reflexivity].
Qed.

(** ** Request targets *)

Module UrlFacts.
Import UrlParse.










End UrlFacts.

(** ** Headers of a forwarded request *)

Module HeaderFacts.
Import HTTPMessage.

Lemma named_eq (name : str) (kv : str * str) :
  named name kv = true <-> lower (fst kv) = lower name.
Proof. unfold named. apply str_eqb_eq. Qed.

Lemma named_neq (name : str) (kv : str * str) :
  named name kv = false <-> lower (fst kv) <> lower name.
Proof. unfold named. apply str_eqb_neq. Qed.

Lemma find_split {A} (p : A -> bool) (l : list A) (x : A) :
  find p l = Some x ->
  exists pre post,
    l = pre ++ x :: post /\ Forall (fun y => p y = false) pre /\ p x = true.
Proof.
  induction l as [|y l IH]; intros H; [discriminate|].
  cbn [find] in H. destruct (p y) eqn:E.
  - injection H as ->. now exists [], l.
  - destruct (IH H) as (pre & post & -> & Hpre & Hx).
    exists (y :: pre), post. repeat split; auto.
Qed.

Lemma replace_header_first (name value : str) (pre : t) (k v : str) (post : t) :
  Forall (fun kv => named name kv = false) pre ->
  named name (k, v) = true ->
  replace_header name value (pre ++ (k, v) :: post)
  = Ret (pre ++ (k, value) :: post).
Proof.
  induction 1 as [|[k0 v0] pre H0 Hpre IH]; intros Hk.
  - cbn [app replace_header]. now rewrite Hk.
  - cbn [app replace_header]. now rewrite H0, IH.
Qed.

Lemma replace_header_missing (name value : str) (msg : t) :
  Forall (fun kv => named name kv = false) msg ->
  replace_header name value msg = Raise KeyError.
Proof.
  induction 1 as [|[k0 v0] msg H0 Hmsg IH]; [reflexivity|].
  cbn [replace_header]. now rewrite H0, IH.
Qed.

Lemma delitem_keeps (name : str) (msg : t) (p : str * str -> bool) :
  Forall (fun kv => p kv = false) msg ->
  Forall (fun kv => p kv = false) (delitem name msg).
Proof.
  intros H. apply Forall_forall. intros kv Hin.
  apply filter_In in Hin. rewrite Forall_forall in H. now apply H.
Qed.

Lemma normalize_spec (hs msg : t) :
  normalize_connection hs = Ret msg -> forwarded_headers hs msg.
Proof.
  unfold forwarded_headers, normalize_connection, get. intros H.
  destruct (find (named $"Connection") hs) as [[k v]|] eqn:Efind;
    cbn [option_map snd] in *.
  2:{ left. split; [now left | now injection H]. }
  destruct v as [|c v]; [left; split; [now right | now injection H]|].
  right. destruct (find_split _ _ _ Efind) as (pre & post & -> & Hpre & Hk).
  exists pre, k, (c :: v), post.
  set (cv := c :: v : str) in *.
  assert (Hdel : delitem cv (pre ++ (k, cv) :: post)
                 = delitem cv pre
                   ++ (if named cv (k, cv) then [] else [(k, cv)])
                   ++ delitem cv post).
  { unfold delitem. rewrite filter_app. cbn [filter].
    now destruct (named cv (k, cv)). }
  rewrite Hdel in H. clear Hdel.
  destruct (named cv (k, cv)) eqn:Eself.
  - (* the value names the Connection header itself: nothing is left to
       replace *)
    exfalso. rewrite replace_header_missing in H; [discriminate|].
    apply named_eq in Eself, Hk. cbn [fst] in *.
    cbn [app]. apply Forall_app. split; apply Forall_forall;
      intros kv Hin; apply filter_In in Hin; destruct Hin as [_ Hin];
      apply negb_true_iff, named_neq in Hin; apply named_neq; congruence.
  - cbn [app] in H.
    rewrite replace_header_first in H;
      [|now apply delitem_keeps | exact Hk].
    injection H as <-. repeat split; auto; try discriminate.
    apply named_neq in Eself. apply named_eq in Hk. cbn [fst] in *.
    congruence.
Qed.

End HeaderFacts.

(** ** Forwarding in direct mode *)

Module DirectFacts.
Import TraceFacts.

Lemma not_CONNECT (m : str) :
  UrlParse.in_list m other_methods = true -> str_eqb m $"CONNECT" = false.
Proof.
  intros H. destruct (str_eqb m $"CONNECT") eqn:E; [|reflexivity].
  apply str_eqb_eq in E. subst m. discriminate.
Qed.

Lemma direct_others (env : Env) (r : Request) :
  UrlParse.in_list (method r) other_methods = true ->
  handle_request env Direct r = handle_others env r.
Proof.
  intros H. unfold handle_request. now rewrite (not_CONNECT _ H), H.
Qed.

(** The only [send] on the far socket is that of [_send_request]. *)
Lemma after_dial_send (data bs : str) (ok : bool) (ev : event)
      (t : list event) :
  after_dial Far data t ->
  (forall d o, ev <> Send Far d o) ->
  In (Send Far bs ok) (ev :: t) -> bs = data.
Proof.
  intros [ok' ->] Hev [H|[H|H]];
    [now apply Hev in H | now injection H |].
  exfalso. destruct ok'; cbn in H; intuition discriminate.
Qed.

(** The three ways [handle_others] can go: nothing happens (bad URL, the
    [KeyError] of the header rewrite, an unreadable authority); the dial
    fails; or the request is sent and relayed. *)
Lemma handle_others_cases (env : Env) (r : Request) :
  trace (handle_others env r) = [] \/
  (exists host port e,
     trace (handle_others env r) = [Connect host port (Some e)]) \/
  (exists u msg host port t,
     UrlParse.urlparse (bracket_ok env) (path r) $"http" = Ret u /\
     UrlParse.scheme u = $"http" /\ UrlParse.netloc u <> [] /\
     normalize_connection (headers r) = Ret msg /\
     trace (handle_others env r) = Connect host port None :: t /\
     after_dial Far
       (request_bytes (method r)
          (UrlParse.urlunparse (UrlParse.scheme u) (UrlParse.netloc u)
             (UrlParse.path u) (UrlParse.params u) (UrlParse.query u) [])
          msg) t).
Proof.
  unfold handle_others.
  destruct (UrlParse.urlparse (bracket_ok env) (path r) $"http") as [u|e];
    [|now left].
  destruct (str_eqb (UrlParse.scheme u) $"http") eqn:Escm;
    cbn [negb orb]; [|now left].
  destruct (UrlParse.netloc u) as [|n nl] eqn:Enl;
    cbn [UrlParse.nonempty negb]; [now left|].
  destruct (normalize_connection (headers r)) as [msg|e]; [|now left].
  apply str_eqb_eq in Escm.
  unfold _send_request. cbn [method headers].
  match goal with
  | |- context [send env Far ?d] => set (data := d) in *
  end.
  pose proof (forward_trace env Far data) as Hfw.
  destruct (connect_to_cases env (n :: nl))
    as [[e E]|[(h & p & E)|[(h & p & E)|(h & p & e & _ & E)]]];
    rewrite E.
  - now left.
  - right; right. unfold bind at 1. cbn [negb].
    destruct (finally (send env Far data ;;; _read_write env) Far)
      as [t res].
    cbn [trace fst app] in *. exists u, msg, h, p, t.
    rewrite Enl. repeat split; auto. discriminate.
  - right; left. now exists h, p, OSError.
  - right; left. now exists h, p, e.
Qed.

Lemma handle_others_send (env : Env) (r : Request) (bs : str) (ok : bool) :
  In (Send Far bs ok) (trace (handle_others env r)) ->
  exists u msg,
    UrlParse.urlparse (bracket_ok env) (path r) $"http" = Ret u /\
    UrlParse.scheme u = $"http" /\ UrlParse.netloc u <> [] /\
    normalize_connection (headers r) = Ret msg /\
    bs = request_bytes (method r)
           (UrlParse.urlunparse (UrlParse.scheme u) (UrlParse.netloc u)
              (UrlParse.path u) (UrlParse.params u) (UrlParse.query u) [])
           msg.
Proof.
  intros Hin.
  destruct (handle_others_cases env r)
    as [E|[(h & p & e & E)|(u & msg & h & p & t & Hu & Hs & Hn & Hm & E & Ht)]];
    rewrite E in Hin.
  - contradiction.
  - destruct Hin as [Hin|[]]. discriminate.
  - exists u, msg. repeat split; auto.
    apply (after_dial_send _ bs ok (Connect h p None) t Ht);
      [discriminate | exact Hin].
Qed.

End DirectFacts.




(** C3 (as the code has it). Whenever the direct-mode handler forwards a
    GET/HEAD/POST/PUT/DELETE request, the header lines sent are those of
    [forwarded_headers]: the headers as received when there is no
    [Connection] header (or its value is empty); otherwise the first
    [Connection] header with the value [close] and, in their original order
    and unchanged, the other headers except those whose name is the old value
    of that [Connection] header. *)
Theorem direct_headers_forwarded
    (env : Env) (r : Request) (bs : str) (ok : bool) :
  UrlParse.in_list (method r) other_methods = true ->
  In (Send Far bs ok) (trace (handle_request env Direct r)) ->
  exists uri msg,
    bs = method r ++ $" " ++ uri ++ $" HTTP/1.0" ++ CRLF
         ++ concat (map (fun kv => header_line kv ++ CRLF) msg) ++ CRLF /\
    forwarded_headers (headers r) msg.
Proof.
  intros Hm Hin. rewrite (DirectFacts.direct_others env r Hm) in Hin.
  destruct (DirectFacts.handle_others_send env r bs ok Hin)
    as (u & msg & _ & _ & _ & Hnorm & Hbs).
  eexists _, msg. split.
  - rewrite Hbs. apply TraceFacts.request_bytes_lines.
  - now apply HeaderFacts.normalize_spec.
Qed.

Lemma direct_headers_forwarded_witness :
  exists uri msg,
    sample_get_sent
    = method sample_get ++ $" " ++ uri ++ $" HTTP/1.0" ++ CRLF
      ++ concat (map (fun kv => header_line kv ++ CRLF) msg) ++ CRLF /\
    forwarded_headers (headers sample_get) msg.
Proof.
  apply (direct_headers_forwarded calm sample_get sample_get_sent true).
  - reflexivity.
  - right; left. reflexivity.
Defined.

(** C3 as stated fails: the [Keep-Alive] header named by [Connection:
    keep-alive] is not forwarded; and of two [Connection] headers only the
    first is rewritten. *)
Lemma direct_headers_counterexample :
  normalize_connection (headers sample_keep_alive)
  = Ret [ ($"Connection", $"close") ]
  /\ trace (handle_request calm Direct sample_keep_alive)
     = [ Connect $"example.com" 80 None;
         Send Far ($"GET http://example.com/ HTTP/1.0" ++ CRLF
                   ++ $"Connection: close" ++ CRLF ++ CRLF) true;
         Relay; Close Far ]
  /\ rewrite_connection_only (headers sample_keep_alive)
     = [ ($"Connection", $"close"); ($"Keep-Alive", $"timeout=5") ]
  /\ [ ($"Connection", $"close") ]
     <> rewrite_connection_only (headers sample_keep_alive)
  /\ ~ In ($"Keep-Alive", $"timeout=5") [ ($"Connection", $"close") ]
  /\ normalize_connection
       [ ($"Connection", $"keep-alive"); ($"connection", $"upgrade") ]
     = Ret [ ($"Connection", $"close"); ($"connection", $"upgrade") ].
Proof.
  split; [reflexivity|]. split; [reflexivity|]. split; [reflexivity|].
  split; [discriminate|]. split; [|reflexivity]. intros [H|[]]. discriminate.
Qed.

(** ** Bridge mode *)

Module BridgeFacts.
Import TraceFacts.

Lemma dial_not_send (ev : event) :
  dials ev = true -> forall s d o, ev <> Send s d o.
Proof. intros H s d o ->. discriminate. Qed.

Lemma target_proxy_cases (env : Env) (scion_mode : bool) :
  exists ev,
    dials ev = true /\
    ((opens ev = false /\ exists e,
        _connect_to_target_proxy env scion_mode = ([ev], Raise e)) \/
     (opens ev = false /\
        _connect_to_target_proxy env scion_mode = ([ev; Close Far], Ret false)) \/
     (opens ev = true /\
        _connect_to_target_proxy env scion_mode = ([ev], Ret true))).
Proof.
  unfold _connect_to_target_proxy, _unix_client_socket. destruct scion_mode.
  - destruct (scion_dial env) as [e|].
    + exists (ScionConnect (Some e)). split; [reflexivity|].
      left. split; [reflexivity | now exists e].
    + exists (ScionConnect None). split; [reflexivity|]. now right; right.
  - destruct (connect_cases env (fst unix_target_proxy)
                (snd unix_target_proxy) (cleanup Far))
      as [E|[[_ E]|[e [Hne E]]]]; rewrite E.
    + exists (Connect (fst unix_target_proxy) (snd unix_target_proxy) None).
      split; [reflexivity|]. right; right. now split.
    + exists (Connect (fst unix_target_proxy) (snd unix_target_proxy)
                (Some OSError)).
      split; [reflexivity|]. right; left. now split.
    + exists (Connect (fst unix_target_proxy) (snd unix_target_proxy)
                (Some e)).
      split; [reflexivity|]. left. split; [reflexivity | now exists e].
Qed.

Lemma relay_all_cases (env : Env) (scion_mode : bool) (r : Request) :
  trace (relay_all env scion_mode r) = [] \/
  (exists ev, dials ev = true /\ opens ev = false /\
     (trace (relay_all env scion_mode r) = [ev] \/
      trace (relay_all env scion_mode r) = [ev; Close Far])) \/
  (exists u ev t,
     UrlParse.urlparse (bracket_ok env) (path r) [] = Ret u /\
     dials ev = true /\ opens ev = true /\
     trace (relay_all env scion_mode r) = ev :: t /\
     after_dial Far
       (request_bytes (method r)
          (UrlParse.urlunparse (UrlParse.scheme u) (UrlParse.netloc u)
             (UrlParse.path u) (UrlParse.params u) (UrlParse.query u) [])
          (headers r)) t).
Proof.
  unfold relay_all.
  destruct (UrlParse.urlparse (bracket_ok env) (path r) []) as [u|e];
    [|now left].
  unfold _send_request.
  match goal with
  | |- context [send env Far ?d] => set (data := d) in *
  end.
  pose proof (forward_trace env Far data) as Hfw.
  destruct (target_proxy_cases env scion_mode)
    as (ev & Hd & [(Hev & e & E)|[(Hev & E)|(Hev & E)]]);
    rewrite E.
  - right; left. exists ev. repeat split; auto.
  - right; left. exists ev. repeat split; auto.
  - right; right. unfold bind at 1. cbn [negb].
    destruct (finally (send env Far data ;;; _read_write env) Far)
      as [t res].
    cbn [trace fst app] in *. now exists u, ev, t.
Qed.

Lemma bridge_dispatch (env : Env) (scion_mode : bool) (r : Request) :
  handle_request env (Bridge scion_mode) r
  = if UrlParse.in_list (method r) ($"CONNECT" :: other_methods)
    then relay_all env scion_mode r else ret tt.
Proof. reflexivity. Qed.

End BridgeFacts.

(** C2 (as the code has it). Whatever the bridge-mode handler forwards is a
    request with one of the six accepted methods, sent as the method as
    received, the target put together again from its parsed components (the
    fragment left out), the fixed protocol version [HTTP/1.0], and every
    header as received, in order, each line ended by [\r\n]. *)
Theorem bridge_forwards_as_http10
    (env : Env) (scion_mode : bool) (r : Request) (bs : str) (ok : bool) :
  In (Send Far bs ok) (trace (handle_request env (Bridge scion_mode) r)) ->
  UrlParse.in_list (method r) ($"CONNECT" :: other_methods) = true /\
  exists u,
    UrlParse.urlparse (bracket_ok env) (path r) [] = Ret u /\
    bs = method r ++ $" "
         ++ UrlParse.urlunparse (UrlParse.scheme u) (UrlParse.netloc u)
              (UrlParse.path u) (UrlParse.params u) (UrlParse.query u) []
         ++ $" HTTP/1.0" ++ CRLF
         ++ concat (map (fun kv => header_line kv ++ CRLF) (headers r))
         ++ CRLF.
Proof.
  rewrite BridgeFacts.bridge_dispatch. intros Hin.
  destruct (UrlParse.in_list (method r) ($"CONNECT" :: other_methods));
    [|contradiction].
  split; [reflexivity|].
  destruct (BridgeFacts.relay_all_cases env scion_mode r)
    as [E|[(ev & Hd & Hev & [E|E])|(u & ev & t & Hu & Hd & Hev & E & Ht)]];
    rewrite E in Hin.
  - contradiction.
  - destruct Hin as [Hin|[]].
    now destruct (BridgeFacts.dial_not_send ev Hd Far bs ok).
  - destruct Hin as [Hin|[Hin|[]]]; [|discriminate].
    now destruct (BridgeFacts.dial_not_send ev Hd Far bs ok).
  - exists u. split; [exact Hu|].
    rewrite <- TraceFacts.request_bytes_lines.
    apply (DirectFacts.after_dial_send _ bs ok ev t Ht); [|exact Hin].
    intros d o. now apply BridgeFacts.dial_not_send.
Qed.

Lemma bridge_forwards_as_http10_witness :
  UrlParse.in_list $"GET" ($"CONNECT" :: other_methods) = true /\
  exists u,
    UrlParse.urlparse (bracket_ok calm) $"http://example.com/" [] = Ret u /\
    $"GET http://example.com/ HTTP/1.0" ++ CRLF
    ++ $"Host: example.com" ++ CRLF ++ CRLF
    = $"GET" ++ $" "
      ++ UrlParse.urlunparse (UrlParse.scheme u) (UrlParse.netloc u)
           (UrlParse.path u) (UrlParse.params u) (UrlParse.query u) []
      ++ $" HTTP/1.0" ++ CRLF
      ++ concat (map (fun kv => header_line kv ++ CRLF)
                   [ ($"Host", $"example.com") ])
      ++ CRLF.
Proof.
  apply (bridge_forwards_as_http10 calm false
           (mkRequest $"GET" $"http://example.com/" $"HTTP/1.1"
              [ ($"Host", $"example.com") ])
           ($"GET http://example.com/ HTTP/1.0" ++ CRLF
            ++ $"Host: example.com" ++ CRLF ++ CRLF) true).
  right; left. reflexivity.
Defined.

(** C2 as stated fails: what reaches the bridge target is not what the
    client sent, for GET and for CONNECT alike: the protocol version is
    [HTTP/1.0]; and a request that already says [HTTP/1.0] loses the fragment
    of its target. *)
Lemma bridge_forwarding_counterexample :
  trace (handler calm (Bridge false) bridge_get)
  = [ Connect $"127.0.0.1" 9090 None;
      Send Far ($"GET http://example.com/ HTTP/1.0" ++ CRLF
                ++ $"Host: example.com" ++ CRLF ++ CRLF) true;
      Relay; Close Far; Close Near ]
  /\ $"GET http://example.com/ HTTP/1.0" ++ CRLF
     ++ $"Host: example.com" ++ CRLF ++ CRLF <> bridge_get
  /\ trace (handler calm (Bridge false) bridge_connect)
     = [ Connect $"127.0.0.1" 9090 None;
         Send Far ($"CONNECT example.com:443 HTTP/1.0" ++ CRLF ++ CRLF) true;
         Relay; Close Far; Close Near ]
  /\ $"CONNECT example.com:443 HTTP/1.0" ++ CRLF ++ CRLF <> bridge_connect
  /\ trace (handler calm (Bridge false) bridge_fragment)
     = [ Connect $"127.0.0.1" 9090 None;
         Send Far ($"GET http://example.com/ HTTP/1.0" ++ CRLF ++ CRLF) true;
         Relay; Close Far; Close Near ]
  /\ $"GET http://example.com/ HTTP/1.0" ++ CRLF ++ CRLF <> bridge_fragment.
Proof.
  split; [reflexivity|]. split; [apply str_eqb_neq; reflexivity|].
  split; [reflexivity|]. split; [apply str_eqb_neq; reflexivity|].
  split; [reflexivity|]. apply str_eqb_neq. reflexivity.
Qed.

(** ** Closing the sockets *)

Module CleanupFacts.
Import TraceFacts.

Create HintDb cleanup.
#[local] Hint Constructors settled Forall : cleanup.

Lemma after_dial_quiet (s : side) (data : str) (t : list event) :
  after_dial s data t -> Forall (fun ev => opens ev = false) t.
Proof. intros [[] ->]; repeat constructor. Qed.

Lemma after_dial_closes (s : side) (data : str) (t : list event) :
  after_dial s data t -> In (Close Far) t.
Proof. intros [[] ->]; cbn; tauto. Qed.

Lemma settled_far_closed (t : list event) :
  settled t -> far_closed (t ++ [Close Near]).
Proof.
  intros [t' Hq | ev s data t' Ht] pre ev' post E Hopen.
  - exfalso.
    assert (Hall : Forall (fun ev => opens ev = false) (t' ++ [Close Near]))
      by (apply Forall_app; split; [exact Hq | now repeat constructor]).
    rewrite E in Hall. apply Forall_app in Hall. destruct Hall as [_ Hall].
    inversion Hall; subst. congruence.
  - destruct pre as [|x pre]; cbn [app] in E.
    + injection E as <- <-. apply in_or_app. left.
      now apply (after_dial_closes s data).
    + exfalso. injection E as _ E.
      assert (Hall : Forall (fun ev => opens ev = false) (t' ++ [Close Near])).
      { apply Forall_app. split; [|now repeat constructor].
        now apply (after_dial_quiet s data). }
      rewrite E in Hall. apply Forall_app in Hall. destruct Hall as [_ Hall].
      inversion Hall; subst. congruence.
Qed.

Lemma handle_request_settled (env : Env) (md : mode) (r : Request) :
  settled (trace (handle_request env md r)).
Proof.
  destruct md as [|scion_mode]; cbn [handle_request].
  - destruct (str_eqb (method r) $"CONNECT").
    + destruct (ConnectFacts.do_CONNECT_cases env r)
        as [E|[(h & p & e & E)|(h & p & ok & E)]]; rewrite E.
      * auto with cleanup.
      * apply settled_quiet. now repeat constructor.
      * apply (settled_relayed _ Near connect_reply). now exists ok.
    + destruct (UrlParse.in_list (method r) other_methods).
      * destruct (DirectFacts.handle_others_cases env r)
          as [E|[(h & p & e & E)
                |(u & msg & h & p & t & _ & _ & _ & _ & E & Ht)]];
          rewrite E.
        -- auto with cleanup.
        -- apply settled_quiet. now repeat constructor.
        -- eapply settled_relayed. exact Ht.
      * cbn. auto with cleanup.
  - destruct (UrlParse.in_list (method r) ($"CONNECT" :: other_methods)).
    + destruct (BridgeFacts.relay_all_cases env scion_mode r)
        as [E|[(ev & _ & Hev & [E|E])|(u & ev & t & _ & _ & _ & E & Ht)]];
        rewrite E.
      * auto with cleanup.
      * apply settled_quiet. now repeat constructor.
      * apply settled_quiet. now repeat constructor.
      * eapply settled_relayed. exact Ht.
    + cbn. auto with cleanup.
Qed.

Lemma handler_trace (env : Env) (md : mode) (conn : str) :
  exists t, settled t /\ trace (handler env md conn) = t ++ [Close Near].
Proof.
  unfold handler.
  destruct (fst (parse_request conn)) as [[r|]|e].
  - exists (trace (handle_request env md r)).
    split; [apply handle_request_settled|].
    now destruct (handle_request env md r).
  - exists []. split; [auto with cleanup | reflexivity].
  - exists []. split; [auto with cleanup | reflexivity].
Qed.

End CleanupFacts.

(** C9. Whatever the client sends and whatever the environment does, in
    either mode, the handler returns with the client-facing socket closed as
    its last action, and every successful dial (plain or SCION) is followed
    by the closing of the far-side socket. *)
Theorem handler_closes_its_sockets (env : Env) (md : mode) (conn : str) :
  near_closed (trace (handler env md conn)) /\
  far_closed (trace (handler env md conn)).
Proof.
  destruct (CleanupFacts.handler_trace env md conn) as (t & Hs & ->).
  split; [now exists t | now apply CleanupFacts.settled_far_closed].
Qed.

(** The exit paths, one by one. *)

Example exit_peer_closed :
  trace (handler calm Direct []) = [Close Near].
Proof. reflexivity. Qed.

Example exit_malformed :
  handler calm Direct ($"GET /" ++ CRLF ++ CRLF)
  = ([Close Near], Raise ValueError).
Proof. reflexivity. Qed.

Example exit_unsupported_method :
  handler calm Direct ($"PATCH http://example.com/ HTTP/1.1" ++ CRLF ++ CRLF)
  = ([Close Near], Ret tt).
Proof. reflexivity. Qed.

Example exit_dial_failure :
  trace (handler unreachable Direct bridge_connect)
  = [Connect $"example.com" 443 (Some OSError); Close Near]
  /\ trace (handler unreachable (Bridge false) bridge_connect)
     = [Connect $"127.0.0.1" 9090 (Some OSError); Close Far; Close Near].
Proof. split; reflexivity. Qed.

Example exit_send_failure :
  handler broken_pipe Direct bridge_get
  = ([ Connect $"example.com" 80 None;
       Send Far ($"GET http://example.com/ HTTP/1.0" ++ CRLF
                 ++ $"Host: example.com" ++ CRLF ++ CRLF) false;
       Close Far; Close Near ], Raise OSError).
Proof. reflexivity. Qed.

Example exit_after_relay :
  handler calm Direct bridge_connect
  = ([ Connect $"example.com" 443 None; Send Near connect_reply true;
       Relay; Close Far; Close Near ], Ret tt).
Proof. reflexivity. Qed.


(** * Further properties *)

(** ** The parser on arbitrary lines *)

Module RawFacts.
Import ParserFacts SplitFacts.

Lemma remove_cr_plain (l : str) : ~ In CR l -> remove_cr l = l.
Proof.
  induction l as [|b l IH]; intros H; [reflexivity|].
  rewrite remove_cr_cons.
  assert (Hb : Ascii.eqb b CR = false)
    by (apply Ascii.eqb_neq; intros ->; apply H; now left).
  rewrite Hb, IH; [reflexivity|]. intros Hin. apply H. now right.
Qed.

(** Reading one line and its [\r\n]; an empty line only at the start. *)
Lemma recv_plain_line (l more : str) (c : nat) (data : str) :
  plain l -> c = 0 \/ (c = 1 /\ l <> []) ->
  recv_loop c data (l ++ CR :: LF :: more)
  = recv_loop 1 (data ++ l ++ [LF]) more.
Proof.
  intros [Hcr Hlf] Hc.
  assert (Hc2 : c < 2) by (destruct Hc as [->|[-> _]]; lia).
  rewrite (recv_loop_plain l c data _ Hc2 Hlf), (remove_cr_plain l Hcr).
  replace (match l with [] => c | _ :: _ => 0 end) with 0
    by (destruct l; [destruct Hc as [->|[_ H]]; congruence | reflexivity]).
  rewrite (recv_loop_cons 0 _ CR _ Nat.lt_0_2).
  change (lf_step 0 CR) with 0. change (remove_cr [CR]) with (@nil ascii).
  rewrite (recv_loop_cons 0 _ LF _ Nat.lt_0_2).
  change (lf_step 0 LF) with 1. change (remove_cr [LF]) with [LF].
  now rewrite app_nil_r, <- app_assoc.
Qed.

Lemma recv_plain_lines (lines : list str) (rest : str) :
  Forall plain_line lines ->
  forall data,
    recv_loop 1 data (concat (map (fun l => l ++ CRLF) lines) ++ CRLF ++ rest)
    = Some (data ++ concat (map (fun l => l ++ [LF]) lines) ++ [LF], rest).
Proof.
  induction 1 as [|l lines [Hl Hne] Hlines IH]; intros data.
  - cbn [map concat app]. unfold CRLF. cbn [app].
    rewrite (recv_loop_cons 1 _ CR _ Nat.lt_1_2).
    change (lf_step 1 CR) with 1. change (remove_cr [CR]) with (@nil ascii).
    rewrite (recv_loop_cons 1 _ LF _ Nat.lt_1_2).
    change (lf_step 1 LF) with 2. change (remove_cr [LF]) with [LF].
    rewrite recv_loop_done by lia. now rewrite app_nil_r.
  - cbn [map concat]. unfold CRLF at 1. rewrite <- !app_assoc. cbn [app].
    rewrite (recv_plain_line l _ 1 data Hl) by (right; now split).
    rewrite IH. now rewrite <- !app_assoc.
Qed.

Lemma recv_raw_head (first : str) (lines : list str) (rest : str) :
  plain first -> Forall plain_line lines ->
  recv_loop 0 [] (raw_head first lines ++ rest)
  = Some (raw_text first lines, rest).
Proof.
  intros Hf Hl. unfold raw_head, raw_text.
  unfold CRLF at 1. rewrite <- !app_assoc. cbn [app].
  rewrite (recv_plain_line first _ 0 [] Hf) by now left.
  rewrite (recv_plain_lines lines rest Hl). cbn [app].
  now rewrite <- !app_assoc.
Qed.

Lemma split_raw_lines (lines : list str) :
  Forall plain_line lines ->
  split_on LF (concat (map (fun l => l ++ [LF]) lines) ++ [LF])
  = lines ++ [[]; []].
Proof.
  induction 1 as [|l lines [[_ Hlf] _] Hlines IH]; [reflexivity|].
  cbn [map concat]. rewrite <- !app_assoc. cbn [app].
  now rewrite (split_on_app LF l _ Hlf), IH.
Qed.

Lemma split_raw_text (first : str) (lines : list str) :
  plain first -> Forall plain_line lines ->
  split_on LF (raw_text first lines) = first :: lines ++ [[]; []].
Proof.
  intros [_ Hlf] Hl. unfold raw_text. cbn [app].
  now rewrite (split_on_app LF first _ Hlf), (split_raw_lines lines Hl).
Qed.

(** The bytes of a head are ASCII when those of its lines are. *)
Lemma raw_text_ascii (first : str) (lines : list str) :
  forallb is_ascii (raw_text first lines)
  = forallb is_ascii first && forallb (forallb is_ascii) lines.
Proof.
  unfold raw_text. rewrite !forallb_app. cbn [forallb].
  change (is_ascii LF) with true. cbn [andb]. rewrite andb_true_r.
  f_equal. induction lines as [|l lines IH]; [reflexivity|].
  cbn [map concat forallb]. rewrite !forallb_app, IH. cbn [forallb].
  change (is_ascii LF) with true. now rewrite !andb_true_r.
Qed.

(** What [parse_request] makes of a head given by its lines. *)
Lemma parse_raw_head (first : str) (lines : list str) (rest : str) :
  plain first -> Forall plain_line lines ->
  parse_request (raw_head first lines ++ rest)
  = (if forallb is_ascii first && forallb (forallb is_ascii) lines then
       match split_on SP first with
       | [m; p; v] =>
           match add_lines (lines ++ [[]; []]) HTTPMessage.empty with
           | Ret msg => Ret (Some (mkRequest m p v msg))
           | Raise e => Raise e
           end
       | _ => Raise ValueError
       end
     else Raise UnicodeDecodeError, rest).
Proof.
  intros Hf Hl. unfold parse_request.
  rewrite (recv_raw_head first lines rest Hf Hl).
  unfold decode_ascii. rewrite raw_text_ascii.
  destruct (forallb is_ascii first && forallb (forallb is_ascii) lines);
    [|reflexivity].
  unfold parse_lines. rewrite (split_raw_text first lines Hf Hl).
  destruct (split_on SP first) as [|m [|p0 [|v [|? ?]]]]; try reflexivity.
  now destruct (add_lines (lines ++ [[]; []]) HTTPMessage.empty).
Qed.

Lemma split_on_length (c : ascii) (s : str) :
  length (split_on c s) = S (count_occ ascii_dec s c).
Proof.
  induction s as [|x s IH]; [reflexivity|].
  cbn [split_on count_occ].
  destruct (Ascii.eqb x c) eqn:E.
  - apply Ascii.eqb_eq in E. subst x.
    destruct (ascii_dec c c); [|congruence]. cbn [length]. now rewrite IH.
  - apply Ascii.eqb_neq in E.
    destruct (ascii_dec x c); [congruence|].
    destruct (split_on c s); cbn [length] in *; lia.
Qed.

(** Header lines that all hold [": "], then one that does not. *)
Lemma add_lines_bad (good : list str) (bad : str) (more : list str) :
  Forall (fun l => l <> [] /\ cut_colon_space l <> None) good ->
  bad <> [] -> cut_colon_space bad = None ->
  forall msg, add_lines (good ++ bad :: more) msg = Raise TypeError.
Proof.
  induction 1 as [|l good [Hne Hcut] Hgood IH]; intros Hb Hnone msg.
  - cbn [app add_lines]. destruct bad; [congruence|]. now rewrite Hnone.
  - cbn [app add_lines]. destruct l as [|x l]; [congruence|].
    destruct (cut_colon_space (x :: l)) as [[n v]|]; [|congruence].
    now apply IH.
Qed.

End RawFacts.

(** X1. [parse_request] returns [False] exactly when the client closes
    before the stream holds a complete header block (two line terminators in
    a row, [\r] aside); an empty stream is such a case. Then nothing is left
    on the connection and no exception is raised. *)
Theorem parser_gives_up_iff_no_header_block (conn : str) :
  (parse_request conn = (Ret None, [])
   <-> forall p rest, conn = p ++ rest -> ~ ends_head p)
  /\ (fst (parse_request conn) = Ret None -> snd (parse_request conn) = []).
Proof.
  unfold parse_request.
  pose proof (ParserFacts.recv_loop_spec conn 0 []) as H.
  destruct (recv_loop 0 [] conn) as [[data rest]|].
  - destruct H as (head & E1 & E2 & E3 & _).
    assert (Hno : forall o : outcome (option Request),
              match decode_ascii data with
              | Raise e => Raise e
              | Ret text => match parse_lines text with
                            | Ret r => Ret (Some r)
                            | Raise e => Raise e
                            end
              end = o -> o <> Ret None).
    { intros o <-. destruct (decode_ascii data) as [text|]; [|discriminate].
      destruct (parse_lines text); discriminate. }
    split; [split|].
    + intros E. exfalso. injection E as E _. exact (Hno _ E eq_refl).
    + intros Hall. exfalso. apply (Hall head rest E1).
      now apply ParserFacts.lf_run_trailing.
    + cbn [fst snd]. intros E. exfalso. exact (Hno _ E eq_refl).
  - split; [split|]; auto.
    intros _ p rest E Hp. apply ParserFacts.lf_run_trailing in Hp.
    specialize (H p rest E). lia.
Qed.

(** Nothing sent, and a request cut off inside its headers. *)
Example parser_gives_up_samples :
  parse_request [] = (Ret None, [])
  /\ parse_request ($"GET / HTTP/1.1" ++ CRLF ++ $"Host: example.com" ++ CRLF)
     = (Ret None, []).
Proof. split; reflexivity. Qed.

(** X2. A head with a byte outside ASCII anywhere in its lines (a header
    value included) makes [parse_request] raise [UnicodeDecodeError], once
    the whole head has been read. *)
Theorem parser_rejects_non_ascii
    (first : str) (lines : list str) (rest : str) :
  plain first -> Forall plain_line lines ->
  forallb is_ascii first && forallb (forallb is_ascii) lines = false ->
  parse_request (raw_head first lines ++ rest) = (Raise UnicodeDecodeError, rest).
Proof.
  intros Hf Hl Hascii.
  now rewrite (RawFacts.parse_raw_head first lines rest Hf Hl), Hascii.
Qed.

Lemma parser_rejects_non_ascii_witness :
  parse_request
    (raw_head $"GET http://example.com/ HTTP/1.1"
       [ $"X-Name: caf" ++ ["233"%char] ] ++ $"body")
  = (Raise UnicodeDecodeError, $"body").
Proof.
  apply (parser_rejects_non_ascii $"GET http://example.com/ HTTP/1.1"
           [ $"X-Name: caf" ++ ["233"%char] ] $"body").
  - split; intros H; cbn in H; intuition discriminate.
  - repeat constructor; try discriminate;
      intros H; cbn in H; intuition discriminate.
  - reflexivity.
Defined.

(** X3. An ASCII head whose first line does not hold exactly two spaces,
    that is, exactly three space-separated fields, makes [parse_request] raise
    [ValueError], whatever the header lines are. *)
Theorem parser_rejects_field_count
    (first : str) (lines : list str) (rest : str) :
  plain first -> Forall plain_line lines ->
  forallb is_ascii first && forallb (forallb is_ascii) lines = true ->
  count_occ ascii_dec first SP <> 2 ->
  parse_request (raw_head first lines ++ rest) = (Raise ValueError, rest).
Proof.
  intros Hf Hl Hascii Hcount.
  rewrite (RawFacts.parse_raw_head first lines rest Hf Hl), Hascii.
  pose proof (RawFacts.split_on_length SP first) as Hlen.
  destruct (split_on SP first) as [|m [|p0 [|v [|? ?]]]]; try reflexivity.
  cbn [length] in Hlen. exfalso. apply Hcount. lia.
Qed.

Lemma parser_rejects_field_count_witness :
  parse_request (raw_head $"GET  / HTTP/1.1" [ $"Host: example.com" ] ++ [])
  = (Raise ValueError, []).
Proof.
  apply (parser_rejects_field_count $"GET  / HTTP/1.1"
           [ $"Host: example.com" ] []).
  - split; intros H; cbn in H; intuition discriminate.
  - repeat constructor; try discriminate;
      intros H; cbn in H; intuition discriminate.
  - reflexivity.
  - vm_compute. discriminate.
Defined.

(** X4. An ASCII head with a three-field request line in which a header
    line before the blank line holds no [": "] (for instance
    [Host:example.com]) makes [parse_request] raise [TypeError], provided the
    header lines before it do hold one. *)
Theorem parser_rejects_header_without_separator
    (first : str) (good : list str) (bad : str) (more : list str) (rest : str) :
  plain first -> Forall plain_line (good ++ bad :: more) ->
  forallb is_ascii first
  && forallb (forallb is_ascii) (good ++ bad :: more) = true ->
  count_occ ascii_dec first SP = 2 ->
  Forall (fun l => cut_colon_space l <> None) good ->
  cut_colon_space bad = None ->
  parse_request (raw_head first (good ++ bad :: more) ++ rest)
  = (Raise TypeError, rest).
Proof.
  intros Hf Hl Hascii Hcount Hgood Hbad.
  rewrite (RawFacts.parse_raw_head first _ rest Hf Hl), Hascii.
  pose proof (RawFacts.split_on_length SP first) as Hlen.
  rewrite Hcount in Hlen.
  destruct (split_on SP first) as [|m [|p0 [|v [|? ?]]]];
    try discriminate Hlen.
  rewrite <- app_assoc. cbn [app].
  rewrite RawFacts.add_lines_bad; [reflexivity| | |exact Hbad].
  - apply Forall_app in Hl. destruct Hl as [Hl _].
    rewrite Forall_forall in *. intros l Hin. split; [|now apply Hgood].
    now apply Hl.
  - apply Forall_app in Hl. destruct Hl as [_ Hl].
    inversion Hl as [|? ? [_ Hne] _]; subst. exact Hne.
Qed.

Lemma parser_rejects_header_without_separator_witness :
  parse_request
    (raw_head $"GET http://example.com/ HTTP/1.1"
       ([ $"Accept: */*" ] ++ $"Host:example.com" :: [ $"X: y" ]) ++ [])
  = (Raise TypeError, []).
Proof.
  apply (parser_rejects_header_without_separator
           $"GET http://example.com/ HTTP/1.1"
           [ $"Accept: */*" ] $"Host:example.com" [ $"X: y" ] []).
  - split; intros H; cbn in H; intuition discriminate.
  - repeat constructor; try discriminate;
      intros H; cbn in H; intuition discriminate.
  - reflexivity.
  - reflexivity.
  - repeat constructor. discriminate.
  - reflexivity.
Defined.

(** ** What the parser accepts *)

Module SoundFacts.
Import ParserFacts SplitFacts.

Lemma split_on_nonempty (c : ascii) (s : str) : split_on c s <> [].
Proof.
  destruct s as [|x s]; [discriminate|]. cbn [split_on].
  destruct (Ascii.eqb x c); [discriminate|].
  destruct (split_on c s); discriminate.
Qed.

(** [sep.join(s.split(sep)) == s] *)
Lemma join_split (c : ascii) (s : str) : join [c] (split_on c s) = s.
Proof.
  induction s as [|x s IH]; [reflexivity|].
  pose proof (split_on_nonempty c s) as Hne.
  cbn [split_on]. destruct (Ascii.eqb x c) eqn:E.
  - apply Ascii.eqb_eq in E. subst x.
    destruct (split_on c s) as [|w ws]; [congruence|].
    cbn [join app] in *. now rewrite IH.
  - destruct (split_on c s) as [|w ws]; [congruence|].
    destruct ws as [|y l]; cbn [join app] in *; now rewrite IH.
Qed.

(** No piece holds the separator. *)
Lemma split_on_no_sep (c : ascii) (s : str) :
  Forall (fun piece => ~ In c piece) (split_on c s).
Proof.
  induction s as [|x s IH]; [repeat constructor; auto|].
  cbn [split_on]. destruct (Ascii.eqb x c) eqn:E.
  - constructor; [auto | exact IH].
  - apply Ascii.eqb_neq in E.
    destruct (split_on c s) as [|w ws].
    + repeat constructor. intros [H|[]]. congruence.
    + inversion IH as [|? ? Hw Hws]; subst. constructor; [|exact Hws].
      intros [H|H]; [congruence | contradiction].
Qed.












Lemma incl_app_r {A} (a b : list A) : incl b (a ++ b).
Proof. intros x Hx. apply in_or_app. now right. Qed.



End SoundFacts.



(** ** What is forwarded parses back *)

Module BackFacts.
Import SplitFacts WellFormedFacts UrlParse.























End BackFacts.



(** ** Where the handlers dial *)

Module DestFacts.
Import TraceFacts.

Lemma split_on_two (c : ascii) (s a b : str) :
  split_on c s = [a; b] -> s = a ++ c :: b /\ ~ In c a /\ ~ In c b.
Proof.
  intros E.
  pose proof (SoundFacts.join_split c s) as J.
  pose proof (SoundFacts.split_on_no_sep c s) as N.
  rewrite E in J, N. cbn [join app] in J.
  rewrite Forall_forall in N.
  split; [now rewrite <- J|].
  split; apply N; cbn; tauto.
Qed.

Lemma connect_eq (env : Env) (h : str) (p : Z) :
  connect env h p (ret tt)
  = ([Connect h p (dial env h p)], dialed (dial env h p)).
Proof. unfold connect. destruct (dial env h p) as [[]|]; reflexivity. Qed.

Lemma resolves_split (env : Env) (nl h : str) (p : Z) :
  mem ":" nl = true -> resolves env nl h p ->
  exists q, split_on ":" nl = [h; q] /\ py_int env q = Some p.
Proof.
  intros Hm [[Hc _]|(q & -> & Hh & Hq & Hi)]; [congruence|].
  exists q. split; [|exact Hi].
  rewrite SplitFacts.split_on_app by exact Hh.
  now rewrite SplitFacts.split_on_whole.
Qed.

(** [_connect_to] either reads no destination, or reads exactly one and
    dials it. *)
Lemma connect_to_eq (env : Env) (nl : str) :
  (_connect_to env nl = ([], Raise ValueError) /\
   forall h p, ~ resolves env nl h p) \/
  (exists h p,
     resolves env nl h p /\
     (forall h' p', resolves env nl h' p' -> h' = h /\ p' = p) /\
     _connect_to env nl
     = ([Connect h p (dial env h p)], dialed (dial env h p))).
Proof.
  unfold _connect_to. destruct (mem ":" nl) eqn:Hm.
  - destruct (split_on ":" nl) as [|h [|q [|x l]]] eqn:Es.
    1, 2, 4: left; split; [reflexivity|]; intros h' p' R;
      destruct (resolves_split env nl h' p' Hm R) as (q' & E & _);
      rewrite Es in E; discriminate.
    pose proof (split_on_two _ _ _ _ Es) as (Enl & Hh & Hq).
    destruct (py_int env q) as [n|] eqn:Ei.
    + right. exists h, n. split; [right; now exists q|]. split.
      * intros h' p' R.
        destruct (resolves_split env nl h' p' Hm R) as (q' & E & Ei').
        rewrite Es in E. injection E as <- <-.
        rewrite Ei in Ei'. injection Ei' as <-. auto.
      * rewrite bind_ret. apply connect_eq.
    + left. split; [reflexivity|]. intros h' p' R.
      destruct (resolves_split env nl h' p' Hm R) as (q' & E & Ei').
      rewrite Es in E. injection E as <- <-. congruence.
  - right. exists nl, 80%Z. split; [left; auto|]. split.
    + intros h' p' [(_ & -> & ->)|(q & E & _)]; [auto|].
      exfalso. apply mem_false in Hm. apply Hm. rewrite E.
      apply in_or_app. right. now left.
    + rewrite bind_ret. apply connect_eq.
Qed.

Lemma unreadable_unresolved (env : Env) (nl : str) :
  unreadable env nl -> forall h p, ~ resolves env nl h p.
Proof.
  intros Hu h p R.
  assert (Hm : mem ":" nl = true).
  { apply mem_In. destruct Hu as [Hc|(h0 & q0 & -> & _)].
    - apply (count_occ_In ascii_dec). lia.
    - apply in_or_app. right. now left. }
  destruct (resolves_split env nl h p Hm R) as (q & E & Ei).
  pose proof (RawFacts.split_on_length ":" nl) as L.
  rewrite E in L. cbn [length] in L.
  destruct Hu as [Hc|(h0 & q0 & Enl & Hi)]; [lia|].
  subst nl. rewrite count_occ_app, count_occ_cons_eq in L by reflexivity.
  assert (Hh0 : ~ In ":"%char h0)
    by (apply (count_occ_not_In ascii_dec); lia).
  assert (Hq0 : ~ In ":"%char q0)
    by (apply (count_occ_not_In ascii_dec); lia).
  rewrite SplitFacts.split_on_app, SplitFacts.split_on_whole in E
    by assumption.
  injection E as <- <-. congruence.
Qed.

Lemma connect_to_unreadable (env : Env) (nl : str) :
  unreadable env nl -> _connect_to env nl = ([], Raise ValueError).
Proof.
  intros Hu.
  destruct (connect_to_eq env nl) as [[E _]|(h & p & R & _)]; [exact E|].
  now destruct (unreadable_unresolved env nl Hu h p).
Qed.

Lemma after_dial_no_dial (s : side) (data : str) (t : list event) :
  after_dial s data t -> Forall (fun ev => dials ev = false) t.
Proof. intros [[] ->]; repeat constructor. Qed.

Lemma finally_trace {A} (m : M A) (s : side) :
  trace (finally m s) = trace m ++ [Close s].
Proof. unfold finally. now destruct m. Qed.

Lemma handler_parsed (env : Env) (md : mode) (conn : str) (r : Request)
      (rest : str) :
  parse_request conn = (Ret (Some r), rest) ->
  handler env md conn = finally (handle_request env md r) Near.
Proof. intros H. unfold handler. now rewrite H. Qed.

(** The one dial of [do_CONNECT]. *)
Lemma do_CONNECT_dial (env : Env) (r : Request) :
  trace (do_CONNECT env Direct r) = [] \/
  exists h p t,
    resolves env (path r) h p /\
    trace (do_CONNECT env Direct r) = Connect h p (dial env h p) :: t /\
    Forall (fun ev => dials ev = false) t.
Proof.
  unfold do_CONNECT.
  destruct (connect_to_eq env (path r)) as [[E _]|(h & p & R & _ & E)];
    rewrite E; [now left|].
  right. exists h, p.
  match goal with
  | |- context [finally ?b Far] =>
      pose proof (forward_trace env Near connect_reply) as Hfw;
      change b with (send env Near connect_reply ;;; _read_write env)
  end.
  destruct (finally (send env Near connect_reply ;;; _read_write env) Far)
    as [t res].
  cbn [trace fst] in Hfw. apply after_dial_no_dial in Hfw.
  destruct (dial env h p) as [[]|]; cbn [dialed];
    try (exists []; split; [exact R|]; split; [reflexivity | constructor]).
  exists t. split; [exact R|]. split; [reflexivity | exact Hfw].
Qed.

(** The one dial of [handle_others]. *)
Lemma handle_others_dial (env : Env) (r : Request) :
  trace (handle_others env r) = [] \/
  exists u h p t,
    UrlParse.urlparse (bracket_ok env) (path r) $"http" = Ret u /\
    UrlParse.scheme u = $"http" /\
    resolves env (UrlParse.netloc u) h p /\
    trace (handle_others env r) = Connect h p (dial env h p) :: t /\
    Forall (fun ev => dials ev = false) t.
Proof.
  unfold handle_others.
  destruct (UrlParse.urlparse (bracket_ok env) (path r) $"http") as [u|e];
    [|now left].
  destruct (str_eqb (UrlParse.scheme u) $"http") eqn:Escm;
    cbn [negb orb]; [|now left].
  destruct (UrlParse.nonempty (UrlParse.netloc u)); cbn [negb]; [|now left].
  destruct (normalize_connection (headers r)) as [msg|e]; [|now left].
  apply str_eqb_eq in Escm.
  unfold _send_request. cbn [method headers].
  match goal with
  | |- context [send env Far ?d] => set (data := d) in *
  end.
  pose proof (forward_trace env Far data) as Hfw.
  destruct (finally (send env Far data ;;; _read_write env) Far) as [t res].
  cbn [trace fst] in Hfw. apply after_dial_no_dial in Hfw.
  destruct (connect_to_eq env (UrlParse.netloc u))
    as [[E _]|(h & p & R & _ & E)]; rewrite E; [now left|].
  right. exists u, h, p.
  destruct (dial env h p) as [[]|]; cbn [dialed];
    try (exists []; repeat split; auto; fail).
  exists t. repeat split; auto.
Qed.

(** The one dial of [relay_all]. *)
Lemma relay_all_dial (env : Env) (scion_mode : bool) (r : Request) :
  trace (relay_all env scion_mode r) = [] \/
  exists t,
    trace (relay_all env scion_mode r) = bridge_dial env scion_mode :: t /\
    Forall (fun ev => dials ev = false) t.
Proof.
  unfold relay_all.
  destruct (UrlParse.urlparse (bracket_ok env) (path r) []) as [u|e];
    [|now left].
  right. unfold _send_request.
  match goal with
  | |- context [send env Far ?d] => set (data := d) in *
  end.
  pose proof (forward_trace env Far data) as Hfw.
  destruct (finally (send env Far data ;;; _read_write env) Far) as [t res].
  cbn [trace fst] in Hfw. apply after_dial_no_dial in Hfw.
  unfold _connect_to_target_proxy, _unix_client_socket, bridge_dial, connect.
  destruct scion_mode.
  - destruct (scion_dial env) as [e|].
    + exists []. split; [reflexivity | constructor].
    + exists t. split; [reflexivity | exact Hfw].
  - destruct (dial env (fst unix_target_proxy) (snd unix_target_proxy))
      as [[]|];
      try (exists []; split; [reflexivity | constructor]).
    + exists [Close Far]. split; [reflexivity | repeat constructor].
    + exists t. split; [reflexivity | exact Hfw].
Qed.

Lemma head_dial (ev d : event) (t : list event) :
  In ev (d :: t) -> dials ev = true ->
  Forall (fun ev => dials ev = false) t -> ev = d.
Proof.
  intros [H|H] Hd Ht; [now symmetry|].
  rewrite Forall_forall in Ht. apply Ht in H. congruence.
Qed.

(** Every dial of a handler, by mode. *)
Lemma handler_dials (env : Env) (md : mode) (conn : str) (ev : event) :
  In ev (trace (handler env md conn)) -> dials ev = true ->
  match md with
  | Direct => exists h p, ev = Connect h p (dial env h p)
  | Bridge scion_mode => ev = bridge_dial env scion_mode
  end.
Proof.
  unfold handler. rewrite finally_trace. intros Hin Hd.
  apply in_app_or in Hin. destruct Hin as [Hin|[<-|[]]]; [|discriminate].
  destruct (fst (parse_request conn)) as [[r|]|e]; try contradiction.
  destruct md as [|scion_mode]; cbn [handle_request] in Hin.
  - destruct (str_eqb (method r) $"CONNECT").
    + destruct (do_CONNECT_dial env r) as [E|(h & p & t & _ & E & Ht)];
        rewrite E in Hin; [contradiction|].
      exists h, p. now apply (head_dial _ _ t).
    + destruct (UrlParse.in_list (method r) other_methods);
        [|contradiction].
      destruct (handle_others_dial env r)
        as [E|(u & h & p & t & _ & _ & _ & E & Ht)];
        rewrite E in Hin; [contradiction|].
      exists h, p. now apply (head_dial _ _ t).
  - destruct (UrlParse.in_list (method r) ($"CONNECT" :: other_methods));
      [|contradiction].
    destruct (relay_all_dial env scion_mode r) as [E|(t & E & Ht)];
      rewrite E in Hin; [contradiction|].
    now apply (head_dial _ _ t).
Qed.

Lemma in_list_In (s : str) (l : list str) :
  UrlParse.in_list s l = true <-> In s l.
Proof.
  unfold UrlParse.in_list. rewrite existsb_exists. split.
  - intros (x & Hx & E). apply str_eqb_eq in E. now subst.
  - intros H. exists s. split; [exact H | apply str_eqb_refl].
Qed.

End DestFacts.

(** X7. [_connect_to] dials exactly the destination it reads from the
    authority: the whole text on port 80 when it holds no colon, the host
    before and the port after its only colon otherwise, the port as [int]
    reads it. It dials nothing else, nothing at all when the authority reads
    as no destination, and it returns the socket exactly when that one dial
    succeeds. *)
Theorem connect_to_dials_what_it_reads
    (env : Env) (nl host : str) (port : Z) (res : option exn) :
  (In (Connect host port res) (trace (_connect_to env nl))
   <-> resolves env nl host port /\ res = dial env host port)
  /\ (snd (_connect_to env nl) = Ret true
      <-> exists h p, resolves env nl h p /\ dial env h p = None).
Proof.
  destruct (DestFacts.connect_to_eq env nl)
    as [[E Hno]|(h & p & R & Huniq & E)]; rewrite E; cbn [trace fst snd].
  - split; split.
    + intros [].
    + intros [R _]. now apply Hno in R.
    + discriminate.
    + intros (h & p & R & _). now apply Hno in R.
  - split; split.
    + intros [H|[]]. injection H as <- <- <-. auto.
    + intros [R' ->]. destruct (Huniq _ _ R') as [-> ->]. now left.
    + intros H. exists h, p. split; [exact R|].
      destruct (dial env h p) as [[]|]; cbn in H; congruence.
    + intros (h' & p' & R' & Hd). destruct (Huniq _ _ R') as [-> ->].
      now rewrite Hd.
Qed.

(** Host and port, and a host alone. *)
Example connect_to_samples :
  _connect_to calm $"example.com:8443"
  = ([Connect $"example.com" 8443 None], Ret true)
  /\ _connect_to unreachable $"example.com"
     = ([Connect $"example.com" 80 (Some OSError)], Ret false).
Proof. split; reflexivity. Qed.

(** The port as [int] reads it in the sample environments: sign, white
    space around and single underscores are taken, anything else is not. *)
Example port_reading_samples :
  decimal $"443" = Some 443%Z /\ decimal $"+443" = Some 443%Z
  /\ decimal $"4_43" = Some 443%Z /\ decimal $" 443 " = Some 443%Z
  /\ decimal ($"443" ++ ["009"%char]) = Some 443%Z
  /\ decimal $"-1" = Some (-1)%Z /\ decimal $"007" = Some 7%Z
  /\ decimal [] = None /\ decimal $"+" = None /\ decimal $"4__43" = None
  /\ decimal $"_443" = None /\ decimal $"443_" = None
  /\ decimal $"+ 443" = None /\ decimal $"44 3" = None
  /\ decimal $"0x1F" = None /\ decimal $"http" = None.
Proof. repeat split; reflexivity. Qed.

(** X8. A CONNECT whose target holds more than one colon (an IPv6 literal
    such as [[::1]:443], or user information with a password) or a port
    that [int] rejects is dropped in direct mode: nothing is dialed, nothing
    is sent to the client, the client connection is closed and the
    [ValueError] escapes the handler. *)
Theorem connect_with_unreadable_target_is_dropped
    (env : Env) (conn rest : str) (r : Request) :
  parse_request conn = (Ret (Some r), rest) ->
  method r = $"CONNECT" ->
  unreadable env (path r) ->
  handler env Direct conn = ([Close Near], Raise ValueError).
Proof.
  intros Hp Hm Hu. rewrite (DestFacts.handler_parsed env Direct conn r rest Hp).
  rewrite (ConnectFacts.direct_connect env r Hm). unfold do_CONNECT.
  now rewrite (DestFacts.connect_to_unreadable env (path r) Hu).
Qed.

Lemma connect_with_unreadable_target_is_dropped_witness :
  handler calm Direct ($"CONNECT [::1]:443 HTTP/1.1" ++ CRLF ++ CRLF)
  = ([Close Near], Raise ValueError).
Proof.
  apply (connect_with_unreadable_target_is_dropped calm
           ($"CONNECT [::1]:443 HTTP/1.1" ++ CRLF ++ CRLF) []
           (mkRequest $"CONNECT" $"[::1]:443" $"HTTP/1.1" [])).
  - reflexivity.
  - reflexivity.
  - left. vm_compute. lia.
Defined.

(** X9. In direct mode every connection the handler opens goes to the
    authority the request names, read as [_connect_to] reads it: the target
    of a CONNECT, the network location of the [http] URL of any other
    method. The handler dials no other host or port. *)
Theorem direct_mode_dials_the_requested_authority
    (env : Env) (r : Request) (host : str) (port : Z) (res : option exn) :
  In (Connect host port res) (trace (handle_request env Direct r)) ->
  res = dial env host port /\
  ((method r = $"CONNECT" /\ resolves env (path r) host port) \/
   (UrlParse.in_list (method r) other_methods = true /\
    exists u,
      UrlParse.urlparse (bracket_ok env) (path r) $"http" = Ret u /\
      UrlParse.scheme u = $"http" /\
      resolves env (UrlParse.netloc u) host port)).
Proof.
  cbn [handle_request]. intros Hin.
  destruct (str_eqb (method r) $"CONNECT") eqn:Em.
  - apply str_eqb_eq in Em.
    destruct (DestFacts.do_CONNECT_dial env r)
      as [E|(h & p & t & R & E & Ht)]; rewrite E in Hin; [contradiction|].
    apply DestFacts.head_dial in Hin; [|reflexivity|exact Ht].
    injection Hin as -> -> ->. split; [reflexivity|]. left. now split.
  - destruct (UrlParse.in_list (method r) other_methods) eqn:El;
      [|contradiction].
    destruct (DestFacts.handle_others_dial env r)
      as [E|(u & h & p & t & Hu & Hs & R & E & Ht)];
      rewrite E in Hin; [contradiction|].
    apply DestFacts.head_dial in Hin; [|reflexivity|exact Ht].
    injection Hin as -> -> ->. split; [reflexivity|]. right.
    split; [reflexivity|]. now exists u.
Qed.

Lemma direct_mode_dials_the_requested_authority_witness :
  None = dial calm $"example.com" 80 /\
  ((method sample_get = $"CONNECT" /\
    resolves calm (path sample_get) $"example.com" 80) \/
   (UrlParse.in_list (method sample_get) other_methods = true /\
    exists u,
      UrlParse.urlparse (bracket_ok calm) (path sample_get) $"http" = Ret u /\
      UrlParse.scheme u = $"http" /\
      resolves calm (UrlParse.netloc u) $"example.com" 80)).
Proof.
  apply (direct_mode_dials_the_requested_authority calm sample_get).
  left. reflexivity.
Defined.

(** X10. In bridge mode every connection the handler opens goes to the
    target proxy: [127.0.0.1:9090] over TCP without SCION, the SCION socket
    with it. The target of the request never decides where the bridge
    connects. *)
Theorem bridge_dials_only_the_target_proxy
    (env : Env) (scion_mode : bool) (conn : str) (ev : event) :
  In ev (trace (handler env (Bridge scion_mode) conn)) ->
  dials ev = true ->
  ev = bridge_dial env scion_mode.
Proof. apply (DestFacts.handler_dials env (Bridge scion_mode)). Qed.

Lemma bridge_dials_only_the_target_proxy_witness :
  Connect $"127.0.0.1" 9090 None = bridge_dial calm false.
Proof.
  apply (bridge_dials_only_the_target_proxy calm false bridge_connect).
  - left. reflexivity.
  - reflexivity.
Defined.

(** X11. Start-up: the listening socket is a SCION socket exactly with [-s]
    and without [-f], a TCP socket on [127.0.0.1] and the given port
    otherwise; a handler opens a SCION connection only with [-f] and [-s]
    together. So SCION is never used on both sides of one proxy, and with
    [-s] alone the outbound connections are plain TCP. *)
Theorem scion_is_used_on_one_side_only
    (env : Env) (args : Args) (conn : str) :
  (main_socket args = ScionServerSocket (arg_port args)
   <-> arg_scion args = true /\ arg_forward args = false)
  /\ (main_socket args = UnixServerSocket (DEFAULT_SERVER_IP, arg_port args)
      <-> ~ (arg_scion args = true /\ arg_forward args = false))
  /\ (forall res,
        In (ScionConnect res) (trace (main_serve env args conn)) ->
        arg_scion args = true /\ arg_forward args = true)
  /\ ~ (main_socket args = ScionServerSocket (arg_port args) /\
        exists res, In (ScionConnect res) (trace (main_serve env args conn))).
Proof.
  assert (Hdial : forall res,
            In (ScionConnect res) (trace (main_serve env args conn)) ->
            arg_scion args = true /\ arg_forward args = true).
  { unfold main_serve, serve_one. intros res Hin.
    destruct (arg_forward args).
    - apply DestFacts.handler_dials in Hin; [|reflexivity].
      unfold bridge_dial in Hin. now destruct (arg_scion args).
    - apply DestFacts.handler_dials in Hin; [|reflexivity].
      destruct Hin as (h & p & Hin). discriminate. }
  unfold main_socket, scion_server_socket, unix_server_socket in *.
  cbn [snd].
  destruct (arg_scion args), (arg_forward args); cbn [andb negb];
    (split; [|split; [|split]]).
  all: try exact Hdial.
  all: try (split; [intros H; solve [discriminate H | auto]
                   | intros [H1 H2]; solve [discriminate | reflexivity]]).
  all: try (split; [intros H [H1 H2]; discriminate
                   | intros H; solve [reflexivity
                                     | exfalso; apply H; auto]]).
  all: intros [H [res Hin]]; try discriminate H;
    apply Hdial in Hin; destruct Hin; discriminate.
Qed.

(** ** Requests that are dropped *)

Module QuietFacts.
Import UrlParse.

Lemma split_scheme_rooted (url dflt : str) :
  split_scheme ("/"%char :: url) dflt = (dflt, "/"%char :: url).
Proof.
  unfold split_scheme. cbn [cut].
  replace (Ascii.eqb "/" ":") with false by reflexivity.
  destruct (cut ":" url) as [[a b]|]; reflexivity.
Qed.

Lemma urlparse_tail (scheme nl url q frag : str) :
  exists u,
    (let '(url, prm) :=
       if in_list scheme uses_params && mem ";" url
       then splitparams url else (url, []) in
     Ret (mkParseResult scheme nl url prm q frag)) = Ret u /\
    UrlParse.scheme u = scheme /\ netloc u = nl.
Proof.
  destruct (in_list scheme uses_params && mem ";" url);
    [destruct (splitparams url)|]; eexists; repeat split.
Qed.

(** A target that starts with one slash has no network location. *)
Lemma urlparse_origin_form (check : str -> bool) (rest dflt : str) :
  starts_with "/" (remove_unsafe rest) = false ->
  exists u,
    urlparse check ("/"%char :: rest) dflt = Ret u /\
    scheme u = dflt /\ netloc u = [].
Proof.
  intros H. unfold urlparse, urlsplit.
  change (lstrip ("/"%char :: rest)) with ("/"%char :: rest).
  change (remove_unsafe ("/"%char :: rest))
    with ("/"%char :: remove_unsafe rest).
  rewrite split_scheme_rooted. cbn [fst snd].
  assert (Ha : split_authority ("/"%char :: remove_unsafe rest)
               = ([], "/"%char :: remove_unsafe rest)).
  { unfold split_authority.
    destruct (remove_unsafe rest) as [|c2 after]; [reflexivity|].
    cbn [starts_with] in H. rewrite H. reflexivity. }
  rewrite Ha. cbn [fst snd].
  change (check_brackets check []) with true. cbv iota.
  apply urlparse_tail.
Qed.

Lemma scheme_char_safe (c : ascii) :
  scheme_char c = true -> unsafe c = false /\ c <> ":"%char.
Proof.
  destruct c as [[] [] [] [] [] [] [] []]; intros H;
    try discriminate H; (split; [reflexivity | discriminate]).
Qed.

Lemma alpha_not_space (c : ascii) :
  is_alpha c = true -> c0_or_space c = false.
Proof.
  destruct c as [[] [] [] [] [] [] [] []]; intros H;
    solve [discriminate H | reflexivity].
Qed.

Lemma remove_unsafe_scheme (sc rest : str) :
  forallb scheme_char sc = true ->
  remove_unsafe (sc ++ ":"%char :: rest) = sc ++ ":"%char :: remove_unsafe rest.
Proof.
  induction sc as [|c sc IH]; intros H; [reflexivity|].
  cbn [forallb] in H. apply andb_true_iff in H. destruct H as [Hc Hsc].
  destruct (scheme_char_safe c Hc) as [Hu _].
  unfold remove_unsafe in *. cbn [app filter]. rewrite Hu. cbn [negb].
  now rewrite (IH Hsc).
Qed.

Lemma scheme_no_colon (sc : str) :
  forallb scheme_char sc = true -> ~ In ":"%char sc.
Proof.
  intros H Hin. rewrite forallb_forall in H. apply H in Hin. discriminate.
Qed.

Lemma cut_app (c : ascii) (a b : str) :
  ~ In c a -> cut c (a ++ c :: b) = Some (a, b).
Proof.
  induction a as [|x a IH]; intros H; cbn [app cut].
  - now rewrite Ascii.eqb_refl.
  - destruct (Ascii.eqb x c) eqn:E.
    + apply Ascii.eqb_eq in E. subst. exfalso. apply H. now left.
    + rewrite IH; [reflexivity|]. intros Hin. apply H. now right.
Qed.

(** A target that starts with a scheme is given that scheme, in lower
    case, whatever the default. *)
Lemma urlparse_scheme (check : str -> bool) (sc rest dflt : str) :
  is_scheme sc = true ->
  urlparse check (sc ++ ":"%char :: rest) dflt = Raise ValueError \/
  exists u,
    urlparse check (sc ++ ":"%char :: rest) dflt = Ret u /\
    scheme u = lower sc.
Proof.
  destruct sc as [|c pre]; [discriminate|]. cbn [is_scheme]. intros H.
  apply andb_true_iff in H. destruct H as [H Hall].
  apply andb_true_iff in H. destruct H as [Hascii Halpha].
  unfold urlparse, urlsplit.
  assert (El : lstrip ((c :: pre) ++ ":"%char :: rest)
               = (c :: pre) ++ ":"%char :: rest).
  { cbn [app lstrip]. now rewrite (alpha_not_space c Halpha). }
  rewrite El, (remove_unsafe_scheme _ _ Hall).
  unfold split_scheme.
  rewrite (cut_app ":" (c :: pre) _ (scheme_no_colon _ Hall)).
  rewrite Hascii, Halpha, Hall. cbn [andb fst snd].
  destruct (check_brackets check _); [|now left].
  right.
  edestruct (urlparse_tail (lower (c :: pre))) as (u & E & Hs & _).
  exists u. split; [exact E | exact Hs].
Qed.

Lemma named_same (n1 n2 : str) (kv : str * str) :
  lower n1 = lower n2 -> HTTPMessage.named n1 kv = HTTPMessage.named n2 kv.
Proof. unfold HTTPMessage.named. now intros ->. Qed.

Lemma delitem_gone (name : str) (msg : HTTPMessage.t) :
  Forall (fun kv => HTTPMessage.named name kv = false)
         (HTTPMessage.delitem name msg).
Proof.
  unfold HTTPMessage.delitem. apply Forall_forall. intros kv H.
  apply filter_In in H. destruct H as [_ H]. now apply negb_true_iff in H.
Qed.

(** A [Connection] header that names itself is deleted before it is
    replaced. *)
Lemma normalize_self (hs : HTTPMessage.t) (v : str) :
  HTTPMessage.get $"Connection" hs = Some v -> v <> [] ->
  lower v = lower $"Connection" ->
  normalize_connection hs = Raise KeyError.
Proof.
  unfold normalize_connection. intros -> Hv Hl.
  destruct v as [|c v]; [congruence|].
  apply HeaderFacts.replace_header_missing.
  eapply Forall_impl; [|apply (delitem_gone (c :: v))].
  intros kv H. now rewrite <- (named_same _ _ kv Hl).
Qed.

End QuietFacts.

(** X12. A request in origin form (a target that starts with one slash, as
    a browser sends to a server that is not a proxy) is dropped in direct
    mode: nothing is dialed, nothing is sent back, and the client connection
    is closed. Tabs in the target are passed over as [urlsplit] does before
    the second character is looked at. *)
Theorem origin_form_request_is_dropped
    (env : Env) (conn rest : str) (r : Request) (target : str) :
  parse_request conn = (Ret (Some r), rest) ->
  UrlParse.in_list (method r) other_methods = true ->
  path r = "/"%char :: target ->
  UrlParse.starts_with "/" (UrlParse.remove_unsafe target) = false ->
  handler env Direct conn = ([Close Near], Ret tt).
Proof.
  intros Hp Hm Hpath Hs.
  rewrite (DestFacts.handler_parsed env Direct conn r rest Hp).
  rewrite (DirectFacts.direct_others env r Hm). unfold handle_others.
  rewrite Hpath.
  destruct (QuietFacts.urlparse_origin_form (bracket_ok env) target $"http" Hs)
    as (u & -> & _ & Hn).
  rewrite Hn. cbn [UrlParse.nonempty negb]. now rewrite orb_true_r.
Qed.

Lemma origin_form_request_is_dropped_witness :
  handler calm Direct
    ($"GET /index.html HTTP/1.1" ++ CRLF ++ $"Host: example.com" ++ CRLF
     ++ CRLF)
  = ([Close Near], Ret tt).
Proof.
  apply (origin_form_request_is_dropped calm
           ($"GET /index.html HTTP/1.1" ++ CRLF ++ $"Host: example.com"
            ++ CRLF ++ CRLF) []
           (mkRequest $"GET" $"/index.html" $"HTTP/1.1"
              [ ($"Host", $"example.com") ])
           $"index.html").
  - reflexivity.
  - reflexivity.
  - reflexivity.
  - reflexivity.
Defined.

(** X13. A request other than CONNECT whose target starts with a scheme
    that is not [http] in any letter case ([https], [ftp], [ws], ...) is
    dropped in direct mode: nothing is dialed and nothing is sent before the
    client connection is closed. *)
Theorem other_scheme_is_dropped
    (env : Env) (conn rest : str) (r : Request) (sc after : str) :
  parse_request conn = (Ret (Some r), rest) ->
  UrlParse.in_list (method r) other_methods = true ->
  path r = sc ++ ":"%char :: after ->
  is_scheme sc = true ->
  lower sc <> $"http" ->
  trace (handler env Direct conn) = [Close Near].
Proof.
  intros Hp Hm Hpath Hsc Hne.
  rewrite (DestFacts.handler_parsed env Direct conn r rest Hp).
  rewrite DestFacts.finally_trace.
  rewrite (DirectFacts.direct_others env r Hm). unfold handle_others.
  rewrite Hpath.
  destruct (QuietFacts.urlparse_scheme (bracket_ok env) sc after $"http" Hsc)
    as [->|(u & -> & Hs)]; [reflexivity|].
  rewrite Hs. apply str_eqb_neq in Hne. now rewrite Hne.
Qed.

Lemma other_scheme_is_dropped_witness :
  trace (handler calm Direct
           ($"GET https://example.com/ HTTP/1.1" ++ CRLF ++ CRLF))
  = [Close Near].
Proof.
  apply (other_scheme_is_dropped calm
           ($"GET https://example.com/ HTTP/1.1" ++ CRLF ++ CRLF) []
           (mkRequest $"GET" $"https://example.com/" $"HTTP/1.1" [])
           $"https" $"//example.com/").
  - reflexivity.
  - reflexivity.
  - reflexivity.
  - reflexivity.
  - discriminate.
Defined.

(** X14. A request whose first [Connection] header names itself (the value
    [connection] in any letter case) is never forwarded in direct mode: the
    header is deleted before it is replaced, so nothing is dialed, and for an
    [http] URL with a host the [KeyError] of [replace_header] escapes. *)
Theorem self_naming_connection_header_is_fatal
    (env : Env) (r : Request) (v : str) :
  UrlParse.in_list (method r) other_methods = true ->
  HTTPMessage.get $"Connection" (headers r) = Some v ->
  v <> [] ->
  lower v = lower $"Connection" ->
  trace (handle_request env Direct r) = [] /\
  (forall u,
     UrlParse.urlparse (bracket_ok env) (path r) $"http" = Ret u ->
     UrlParse.scheme u = $"http" -> UrlParse.netloc u <> [] ->
     handle_request env Direct r = ([], Raise KeyError)).
Proof.
  intros Hm Hget Hv Hl.
  rewrite (DirectFacts.direct_others env r Hm). unfold handle_others.
  rewrite (QuietFacts.normalize_self (headers r) v Hget Hv Hl).
  destruct (UrlParse.urlparse (bracket_ok env) (path r) $"http") as [u|e].
  - split.
    + now destruct (negb (str_eqb (UrlParse.scheme u) $"http")
                    || negb (UrlParse.nonempty (UrlParse.netloc u))).
    + intros u' E Hs Hn. injection E as <-.
      rewrite Hs. destruct (UrlParse.netloc u); [congruence | reflexivity].
  - split; [reflexivity | discriminate].
Qed.

Lemma self_naming_connection_header_is_fatal_witness :
  trace (handle_request calm Direct
           (mkRequest $"GET" $"http://example.com/" $"HTTP/1.1"
              [ ($"Host", $"example.com"); ($"Connection", $"Connection") ]))
  = [] /\
  (forall u,
     UrlParse.urlparse (bracket_ok calm) $"http://example.com/" $"http"
     = Ret u ->
     UrlParse.scheme u = $"http" -> UrlParse.netloc u <> [] ->
     handle_request calm Direct
       (mkRequest $"GET" $"http://example.com/" $"HTTP/1.1"
          [ ($"Host", $"example.com"); ($"Connection", $"Connection") ])
     = ([], Raise KeyError)).
Proof.
  apply (self_naming_connection_header_is_fatal calm
           (mkRequest $"GET" $"http://example.com/" $"HTTP/1.1"
              [ ($"Host", $"example.com"); ($"Connection", $"Connection") ])
           $"Connection").
  - reflexivity.
  - reflexivity.
  - discriminate.
  - reflexivity.
Defined.

(** X15. A request whose method is none of CONNECT, GET, HEAD, POST, PUT
    and DELETE, spelled in capitals (OPTIONS and TRACE are such methods, and
    so is [get]), is dropped in either mode: the handler dials nothing, sends
    nothing and closes the client connection. *)
Theorem unsupported_method_is_dropped
    (env : Env) (md : mode) (conn rest : str) (r : Request) :
  parse_request conn = (Ret (Some r), rest) ->
  ~ In (method r) ($"CONNECT" :: other_methods) ->
  handler env md conn = ([Close Near], Ret tt).
Proof.
  intros Hp Hm. rewrite (DestFacts.handler_parsed env md conn r rest Hp).
  assert (Hall : UrlParse.in_list (method r) ($"CONNECT" :: other_methods)
                 = false).
  { destruct (UrlParse.in_list (method r) ($"CONNECT" :: other_methods))
      eqn:E; [|reflexivity].
    now apply DestFacts.in_list_In in E. }
  destruct md as [|scion_mode]; cbn [handle_request].
  - unfold UrlParse.in_list in Hall. cbn [existsb] in Hall.
    apply orb_false_iff in Hall. destruct Hall as [Hc Ho].
    fold (UrlParse.in_list (method r) other_methods) in Ho.
    now rewrite Hc, Ho.
  - now rewrite Hall.
Qed.

Lemma unsupported_method_is_dropped_witness :
  handler calm (Bridge true)
    ($"OPTIONS http://example.com/ HTTP/1.1" ++ CRLF ++ CRLF)
  = ([Close Near], Ret tt).
Proof.
  apply (unsupported_method_is_dropped calm (Bridge true)
           ($"OPTIONS http://example.com/ HTTP/1.1" ++ CRLF ++ CRLF) []
           (mkRequest $"OPTIONS" $"http://example.com/" $"HTTP/1.1" [])).
  - reflexivity.
  - cbn. intros H. intuition discriminate.
Defined.

(** ** The handler as a whole *)

Module ShapeFacts.

Lemma after_dial_far (data : str) (t : list event) (bs : str) (ok : bool) :
  after_dial Far data t -> ~ In (Send Near bs ok) t.
Proof.
  intros [[] ->] H; cbn in H; intuition discriminate.
Qed.

Lemma after_dial_shape (ev : event) (s : side) (data : str)
      (t : list event) :
  dials ev = true -> opens ev = true -> after_dial s data t ->
  handler_shape ((ev :: t) ++ [Close Near]).
Proof.
  intros Hd Ho [[] ->]; cbn [app].
  - now apply shape_relayed.
  - now apply shape_send_failed.
Qed.

Lemma handle_request_shape (env : Env) (md : mode) (r : Request) :
  handler_shape (trace (handle_request env md r) ++ [Close Near]).
Proof.
  destruct md as [|scion_mode]; cbn [handle_request].
  - destruct (str_eqb (method r) $"CONNECT").
    + destruct (ConnectFacts.do_CONNECT_cases env r)
        as [E|[(h & p & e & E)|(h & p & ok & E)]]; rewrite E.
      * apply shape_idle.
      * now apply shape_dial_failed.
      * apply (after_dial_shape _ Near connect_reply); try reflexivity.
        now exists ok.
    + destruct (UrlParse.in_list (method r) other_methods);
        [|apply shape_idle].
      destruct (DirectFacts.handle_others_cases env r)
        as [E|[(h & p & e & E)
              |(u & msg & h & p & t & _ & _ & _ & _ & E & Ht)]];
        rewrite E.
      * apply shape_idle.
      * now apply shape_dial_failed.
      * now apply (after_dial_shape (Connect h p None) _ _ _ eq_refl eq_refl Ht).
  - destruct (UrlParse.in_list (method r) ($"CONNECT" :: other_methods));
      [|apply shape_idle].
    destruct (BridgeFacts.relay_all_cases env scion_mode r)
      as [E|[(ev & Hd & Hev & [E|E])|(u & ev & t & _ & Hd & Hev & E & Ht)]];
      rewrite E.
    + apply shape_idle.
    + now apply shape_dial_failed.
    + now apply shape_dial_failed_closed.
    + now apply (after_dial_shape _ _ _ _ Hd Hev Ht).
Qed.

End ShapeFacts.

(** X16. The handler itself never answers with an error: the only bytes it
    sends to the client are the [200 Connection established] reply, in
    direct mode, for a CONNECT, after the dial has succeeded. A bridge, and a
    direct proxy on any other request or after any failure, sends the client
    nothing of its own. *)
Theorem client_is_sent_only_the_connect_reply
    (env : Env) (md : mode) (conn bs : str) (ok : bool) :
  In (Send Near bs ok) (trace (handler env md conn)) ->
  md = Direct /\ bs = connect_reply /\
  exists r h p,
    fst (parse_request conn) = Ret (Some r) /\
    method r = $"CONNECT" /\
    In (Connect h p None) (trace (handler env md conn)).
Proof.
  unfold handler. rewrite DestFacts.finally_trace. intros Hin.
  apply in_app_or in Hin. destruct Hin as [Hin|[H|[]]]; [|discriminate].
  destruct (fst (parse_request conn)) as [[r|]|e]; try contradiction.
  destruct md as [|scion_mode]; cbn [handle_request] in *.
  - destruct (str_eqb (method r) $"CONNECT") eqn:Em.
    + apply str_eqb_eq in Em.
      destruct (ConnectFacts.do_CONNECT_cases env r)
        as [E|[(h & p & e & E)|(h & p & ok' & E)]]; rewrite E in *.
      * contradiction.
      * destruct Hin as [H|[]]. discriminate.
      * split; [reflexivity|]. split.
        -- destruct Hin as [H|[H|H]]; [discriminate|congruence|].
           exfalso. destruct ok'; cbn in H; intuition discriminate.
        -- exists r, h, p. repeat split; auto. now left.
    + destruct (UrlParse.in_list (method r) other_methods);
        [|contradiction].
      destruct (DirectFacts.handle_others_cases env r)
        as [E|[(h & p & e & E)
              |(u & msg & h & p & t & _ & _ & _ & _ & E & Ht)]];
        rewrite E in *.
      * contradiction.
      * destruct Hin as [H|[]]. discriminate.
      * destruct Hin as [H|H]; [discriminate|].
        now destruct (ShapeFacts.after_dial_far _ _ bs ok Ht).
  - destruct (UrlParse.in_list (method r) ($"CONNECT" :: other_methods));
      [|contradiction].
    destruct (BridgeFacts.relay_all_cases env scion_mode r)
      as [E|[(ev & Hd & Hev & [E|E])|(u & ev & t & _ & Hd & Hev & E & Ht)]];
      rewrite E in *.
    + contradiction.
    + destruct Hin as [H|[]]. subst ev. discriminate.
    + destruct Hin as [H|[H|[]]]; [subst ev|]; discriminate.
    + destruct Hin as [H|H]; [subst ev; discriminate|].
      now destruct (ShapeFacts.after_dial_far _ _ bs ok Ht).
Qed.

Lemma client_is_sent_only_the_connect_reply_witness :
  Direct = Direct /\ connect_reply = connect_reply /\
  exists r h p,
    fst (parse_request bridge_connect) = Ret (Some r) /\
    method r = $"CONNECT" /\
    In (Connect h p None) (trace (handler calm Direct bridge_connect)).
Proof.
  apply (client_is_sent_only_the_connect_reply calm Direct bridge_connect
           connect_reply true).
  right; left. reflexivity.
Defined.

(** X17. What a handler does on one connection has one of five shapes:
    nothing but closing the client connection; one failed dial; one failed
    dial and the closing of the outbound socket; one successful dial, one
    failed send and the closing of both sockets; one successful dial, one
    send, the relay and the closing of both sockets. So a handler dials at
    most once, relays only after its one send went through, and the closing
    of the client connection is the last thing it does. *)
Theorem handler_trace_has_one_of_five_shapes
    (env : Env) (md : mode) (conn : str) :
  handler_shape (trace (handler env md conn)).
Proof.
  unfold handler. rewrite DestFacts.finally_trace.
  destruct (fst (parse_request conn)) as [[r|]|e].
  - apply ShapeFacts.handle_request_shape.
  - apply shape_idle.
  - apply shape_idle.
Qed.

(** ** The relay against a peer that goes away *)

(** X18. One direction of the relay against a destination that takes only
    [b] more bytes: the run ends, and the destination has received exactly
    the first [b] bytes of what the source had to deliver, nothing reordered
    and nothing repeated; the loop was left on a write error exactly when the
    source had more than [b] bytes. *)
Theorem relay_delivers_up_to_the_budget
    (r : ProxyData.rsock) (w : ProxyData.wsock) (b : nat) :
  ProxyData.budget w = Some b ->
  exists st r' w',
    ProxyData._run r w = Some (st, r', w') /\
    ProxyData.written w'
    = ProxyData.written w ++ firstn b (ProxyData.pending r) /\
    (st = ProxyData.WriteError <-> b < length (ProxyData.pending r)).
Proof.
  intros Hb.
  destruct (BudgetFacts.loop_budget (S (length (ProxyData.pending r))) r w b Hb)
    as (st & r' & w' & Hrun & Hw & Hst); [lia|].
  exists st, r', (ProxyData.shutdown w'). unfold ProxyData._run.
  rewrite Hrun. now repeat split; try apply Hst.
Qed.

Lemma relay_delivers_up_to_the_budget_witness :
  exists st r' w',
    ProxyData._run (ProxyData.mkRsock $"hello" [1; 0] ProxyData.Eof)
      (ProxyData.mkWsock $"ab" [] (Some 3) false)
    = Some (st, r', w') /\
    ProxyData.written w' = $"ab" ++ firstn 3 $"hello" /\
    (st = ProxyData.WriteError <-> 3 < length $"hello").
Proof.
  apply (relay_delivers_up_to_the_budget
           (ProxyData.mkRsock $"hello" [1; 0] ProxyData.Eof)
           (ProxyData.mkWsock $"ab" [] (Some 3) false) 3).
  reflexivity.
Defined.

(** ** How the parser fails *)

Module FailFacts.

Lemma add_lines_raise (lines : list str) :
  forall msg e, add_lines lines msg = Raise e -> e = TypeError.
Proof.
  induction lines as [|l lines IH]; intros msg e H; [discriminate|].
  cbn [add_lines] in H. destruct l as [|x l]; [discriminate|].
  destruct (cut_colon_space (x :: l)) as [[n v]|]; [|congruence].
  now apply IH in H.
Qed.

Lemma parse_lines_raise (text : str) (e : exn) :
  parse_lines text = Raise e -> e = ValueError \/ e = TypeError.
Proof.
  unfold parse_lines. intros H.
  destruct (split_on LF text) as [|first lines] eqn:Es;
    [now destruct (SoundFacts.split_on_nonempty LF text)|].
  destruct (split_on SP first) as [|m [|p [|v [|? ?]]]];
    try (left; congruence).
  destruct (add_lines lines HTTPMessage.empty) as [msg|e'] eqn:Ea;
    [discriminate|].
  right. injection H as <-. now apply add_lines_raise in Ea.
Qed.

End FailFacts.

(** X19. On a connection that delivers its bytes, [parse_request] fails in
    three ways only: [UnicodeDecodeError] for a byte outside ASCII,
    [ValueError] for a request line that is not three fields, [TypeError] for
    a header line without separator. In particular the request line is
    always there to be taken off the list of lines. *)
Theorem parser_fails_in_three_ways (conn : str) (e : exn) :
  fst (parse_request conn) = Raise e ->
  e = UnicodeDecodeError \/ e = ValueError \/ e = TypeError.
Proof.
  unfold parse_request.
  destruct (recv_loop 0 [] conn) as [[data rest]|]; cbn [fst];
    [|discriminate].
  unfold decode_ascii. destruct (forallb is_ascii data).
  - destruct (parse_lines data) as [r|e'] eqn:Ep; [discriminate|].
    intros H. injection H as <-. right.
    now apply FailFacts.parse_lines_raise in Ep.
  - intros H. injection H as <-. now left.
Qed.

Lemma parser_fails_in_three_ways_witness :
  TypeError = UnicodeDecodeError \/ TypeError = ValueError
  \/ TypeError = TypeError.
Proof.
  apply (parser_fails_in_three_ways
           ($"GET / HTTP/1.1" ++ CRLF ++ $"Host:example.com" ++ CRLF ++ CRLF)).
  reflexivity.
Defined.

(** ** How failures end a handler *)

Module OutcomeFacts.
Import TraceFacts.

(** The send, the relay and the closing that follow a successful dial. *)
Lemma tail_cases (env : Env) (s : side) (data : str) :
  finally (send env s data ;;; _read_write env) Far
  = ([Send s data false; Close Far], Raise OSError) \/
  finally (send env s data ;;; _read_write env) Far
  = ([Send s data true; Relay; Close Far], relayed env).
Proof.
  unfold send, _read_write, relayed.
  destruct (send_ok env s data); [right | left; reflexivity].
  now destruct (relay_exn env).
Qed.

(** The four ways [handle_request] can go. *)
Lemma handle_request_value (env : Env) (md : mode) (r : Request) :
  (exists res, handle_request env md r = ([], res)) \/
  (exists h p e,
     handle_request env md r
     = (Connect h p (Some e) :: refused_closing md e, swallowed e)) \/
  (exists e, handle_request env md r = ([ScionConnect (Some e)], Raise e)) \/
  (exists ev s data,
     opens ev = true /\
     handle_request env md r
     = (ev :: fst (finally (send env s data ;;; _read_write env) Far),
        snd (finally (send env s data ;;; _read_write env) Far))).
Proof.
  destruct md as [|scion_mode]; cbn [handle_request].
  - destruct (str_eqb (method r) $"CONNECT").
    + unfold do_CONNECT.
      destruct (DestFacts.connect_to_eq env (path r))
        as [[E _]|(h & p & _ & _ & E)]; rewrite E;
        [left; now eexists|].
      match goal with
      | |- context [finally ?b Far] =>
          change b with (send env Near connect_reply ;;; _read_write env)
      end.
      destruct (dial env h p) as [e|]; cbn [dialed].
      * right; left. exists h, p, e. now destruct e.
      * right; right; right. exists (Connect h p None), Near, connect_reply.
        split; [reflexivity|]. unfold bind at 1. cbn [negb].
        now destruct (finally _ Far).
    + destruct (UrlParse.in_list (method r) other_methods);
        [|left; now eexists].
      unfold handle_others.
      destruct (UrlParse.urlparse (bracket_ok env) (path r) $"http")
        as [u|e]; [|left; now eexists].
      destruct (negb (str_eqb (UrlParse.scheme u) $"http")
                || negb (UrlParse.nonempty (UrlParse.netloc u)));
        [left; now eexists|].
      destruct (normalize_connection (headers r)) as [msg|e];
        [|left; now eexists].
      unfold _send_request. cbn [method headers].
      match goal with
      | |- context [send env Far ?d] => set (data := d) in *
      end.
      destruct (DestFacts.connect_to_eq env (UrlParse.netloc u))
        as [[E _]|(h & p & _ & _ & E)]; rewrite E;
        [left; now eexists|].
      destruct (dial env h p) as [e|]; cbn [dialed].
      * right; left. exists h, p, e. now destruct e.
      * right; right; right. exists (Connect h p None), Far, data.
        split; [reflexivity|]. unfold bind at 1. cbn [negb].
        now destruct (finally _ Far).
  - destruct (UrlParse.in_list (method r) ($"CONNECT" :: other_methods));
      [|left; now eexists].
    unfold relay_all.
    destruct (UrlParse.urlparse (bracket_ok env) (path r) []) as [u|e];
      [|left; now eexists].
    unfold _send_request.
    match goal with
    | |- context [send env Far ?d] => set (data := d) in *
    end.
    unfold _connect_to_target_proxy, _unix_client_socket, connect.
    destruct scion_mode.
    + destruct (scion_dial env) as [e|].
      * right; right; left. now exists e.
      * right; right; right. exists (ScionConnect None), Far, data.
        split; [reflexivity|].
        now destruct (finally (send env Far data ;;; _read_write env) Far).
    + destruct (dial env (fst unix_target_proxy) (snd unix_target_proxy))
        as [e|].
      * right; left.
        exists (fst unix_target_proxy), (snd unix_target_proxy), e.
        now destruct e.
      * right; right; right.
        exists (Connect (fst unix_target_proxy) (snd unix_target_proxy) None),
               Far, data.
        split; [reflexivity|].
        now destruct (finally (send env Far data ;;; _read_write env) Far).
Qed.

Lemma handler_value (env : Env) (md : mode) (conn : str) :
  (exists res, handler env md conn = ([Close Near], res)) \/
  exists r, handler env md conn = finally (handle_request env md r) Near.
Proof.
  unfold handler.
  destruct (fst (parse_request conn)) as [[r|]|e];
    [right; now exists r | left; now eexists | left; now eexists].
Qed.

End OutcomeFacts.

(** X20. A refused connection is swallowed. When a TCP dial of the handler
    fails with [OSError] (connection refused, time-out, unknown host), the
    handler sends nothing to the client or to anyone, closes the outbound
    socket in bridge mode, closes the client connection, and returns
    normally; when the dial fails with anything else, that exception
    escapes after the client connection is closed. *)
Theorem failed_dial_ends_the_handler
    (env : Env) (md : mode) (conn host : str) (port : Z) (e : exn) :
  In (Connect host port (Some e)) (trace (handler env md conn)) ->
  handler env md conn
  = (Connect host port (Some e) :: refused_closing md e ++ [Close Near],
     swallowed e).
Proof.
  destruct (OutcomeFacts.handler_value env md conn) as [[res E]|[r E]];
    rewrite E; cbn [trace fst].
  - intros [H|[]]. discriminate.
  - destruct (OutcomeFacts.handle_request_value env md r)
      as [[res V]|[(h & p & e' & V)|[(e' & V)|(ev & s & data & Hev & V)]]];
      rewrite V; cbn [finally trace fst app].
    + intros [H|[]]. discriminate.
    + intros [H|Hin].
      * injection H as -> -> ->. reflexivity.
      * exfalso. destruct md, e'; cbn in Hin; intuition discriminate.
    + intros [H|[H|[]]]; discriminate.
    + intros Hin. exfalso.
      destruct (OutcomeFacts.tail_cases env s data) as [T|T];
        rewrite T in Hin; cbn in Hin;
        repeat (destruct Hin as [Hin|Hin];
                [try discriminate Hin; subst ev; discriminate Hev|]);
        exact Hin.
Qed.

Lemma failed_dial_ends_the_handler_witness :
  handler unreachable (Bridge false) bridge_get
  = (Connect $"127.0.0.1" 9090 (Some OSError)
       :: refused_closing (Bridge false) OSError ++ [Close Near],
     swallowed OSError).
Proof.
  apply (failed_dial_ends_the_handler unreachable (Bridge false) bridge_get).
  left. reflexivity.
Defined.

(** X21. A failed send ends everything. When the one send of the handler
    (the CONNECT reply to the client, or the request to the outbound side)
    fails, no relay is started, the outbound socket and then the client
    connection are closed, and the [OSError] escapes the handler. *)
Theorem failed_send_ends_the_handler
    (env : Env) (md : mode) (conn : str) (s : side) (bs : str) :
  In (Send s bs false) (trace (handler env md conn)) ->
  exists ev,
    opens ev = true /\
    handler env md conn
    = ([ev; Send s bs false; Close Far; Close Near], Raise OSError).
Proof.
  destruct (OutcomeFacts.handler_value env md conn) as [[res E]|[r E]];
    rewrite E; cbn [trace fst].
  - intros [H|[]]. discriminate.
  - destruct (OutcomeFacts.handle_request_value env md r)
      as [[res V]|[(h & p & e' & V)|[(e' & V)|(ev & s' & data & Hev & V)]]];
      rewrite V; cbn [finally trace fst app].
    + intros [H|[]]. discriminate.
    + intros Hin. exfalso. destruct Hin as [H|Hin]; [discriminate|].
      destruct md, e'; cbn in Hin; intuition discriminate.
    + intros [H|[H|[]]]; discriminate.
    + intros Hin. exists ev. split; [exact Hev|].
      destruct (OutcomeFacts.tail_cases env s' data) as [T|T];
        rewrite T in *; cbn [fst snd app] in *.
      * destruct Hin as [H|[H|[H|[H|[]]]]]; try discriminate H.
        -- subst ev. discriminate Hev.
        -- injection H as -> ->. reflexivity.
      * exfalso.
        destruct Hin as [H|[H|[H|[H|[H|[]]]]]]; try discriminate H.
        subst ev. discriminate Hev.
Qed.

Lemma failed_send_ends_the_handler_witness :
  exists ev,
    opens ev = true /\
    handler broken_pipe Direct bridge_connect
    = ([ev; Send Near connect_reply false; Close Far; Close Near],
       Raise OSError).
Proof.
  apply (failed_send_ends_the_handler broken_pipe Direct bridge_connect).
  right; left. reflexivity.
Defined.
